(** * OperaPowerTools: a verification development for [opt.py]

    The module [OperaPowerTools/opt.py] is a set of independent helper
    functions.  Each Rocq module below embeds one group of them and proves
    the contract the specification states for it.

    Conventions of the embedding:
    - a Python [int] is a [Z]; a Python [list] updated by index is a Rocq
      list read with [!!] and written with [<[i:=x]>], with the [IndexError]
      Python raises out of range written out ([None] in the sorting code);
    - a Python [str] is a [string] of ASCII characters: the character
      classes of [re] and [str] and the case mapping are those of the code
      points below 128, and what depends on them is stated of ASCII texts;
      a regular expression is read from its source text into a list of
      alternatives and searched by a leftmost, greedy, backtracking
      matcher, as [re] does;
    - [int(s)] on a string of digits raises beyond 4300 digits, the limit
      the interpreter starts with;
    - a number argument of [random_within_boundary_box] and [timed_delay]
      is an [int] or a [float], the latter an IEEE 754 binary64 value (the
      primitive [float]) with its rounding, infinities and NaN; the
      exceptions of the arithmetic and of [int()] are results;
    - a similarity score, which the code only compares, is a rational;
    - third-party collaborators (rapidfuzz, metaphone, jellyfish, inflect,
      word2number, sumy, the filesystem, the clock, the random generator)
      are parameters of the section that embeds their caller. *)

From Stdlib Require Import ZArith QArith Ascii String List Sorting.Sorted Lia Floats.
From stdpp Require Import base tactics option list sorting strings gmap pretty.

#[global] Set Warnings "-register-all".
#[global] Set Warnings "-inexact-float".

(* ===================================================================== *)
(** * Sorting: [bubble_sort], [selection_sort], [insertion_sort]         *)
(* ===================================================================== *)

Module Sorting.

Local Open Scope Z_scope.

(** [for x in xs: s = body(s, x)], where the body may raise. *)
Fixpoint for_each {S X : Type} (body : S → X → option S) (xs : list X) (s : S)
    : option S :=
  match xs with
  | [] => Some s
  | x :: xs' => s' ← body s x; for_each body xs' s'
  end.

(** Python's [range(a, b)] for natural bounds: empty when [b <= a]. *)
Definition range (a b : nat) : list nat := seq a (b - a).

(** [arr[i] = v]: [IndexError] when [i] is out of range. *)
Definition store (i : nat) (v : Z) (arr : list Z) : option (list Z) :=
  if decide (i < length arr)%nat then Some (<[i:=v]> arr) else None.

(** ** bubble_sort *)

(** Body of the inner loop, on the state [(arr, swapped)]:
    [if arr[j] > arr[j + 1]: arr[j], arr[j + 1] = arr[j + 1], arr[j];
     swapped = True]. *)
Definition bubble_step (st : list Z * bool) (j : nat) : option (list Z * bool) :=
  let '(arr, swapped) := st in
  aj ← arr !! j;
  aj1 ← arr !! (j + 1)%nat;
  if aj >? aj1 then
    arr1 ← store j aj1 arr;
    arr2 ← store (j + 1) aj arr1;
    Some (arr2, true)
  else Some (arr, swapped).

(** The outer loop over the remaining values of [i], with its [break]. *)
Fixpoint bubble_outer (n : nat) (is_ : list nat) (arr : list Z) : option (list Z) :=
  match is_ with
  | [] => Some arr
  | i :: is' =>
      st ← for_each bubble_step (range 0 (n - i - 1)) (arr, false);
      if negb (snd st) then Some (fst st) else bubble_outer n is' (fst st)
  end.

Definition bubble_sort (arr : list Z) : option (list Z) :=
  let n := length arr in
  bubble_outer n (range 0 n) arr.

(** ** selection_sort *)

(** Body of the inner loop, on the state [min_index]:
    [if arr[j] < arr[min_index]: min_index = j]. *)
Definition select_step (arr : list Z) (min_index j : nat) : option nat :=
  aj ← arr !! j;
  am ← arr !! min_index;
  Some (if aj <? am then j else min_index).

(** Body of the outer loop:
    [arr[i], arr[min_index] = arr[min_index], arr[i]] after the scan. *)
Definition selection_step (n : nat) (arr : list Z) (i : nat) : option (list Z) :=
  min_index ← for_each (select_step arr) (range (i + 1) n) i;
  am ← arr !! min_index;
  ai ← arr !! i;
  arr1 ← store i am arr;
  store min_index ai arr1.

Definition selection_sort (arr : list Z) : option (list Z) :=
  let n := length arr in
  for_each (selection_step n) (range 0 n) arr.

(** ** insertion_sort *)

(** [while j >= 0 and arr[j] > key: arr[j + 1] = arr[j]; j -= 1], followed
    by [arr[j + 1] = key].  The counter [k] is [j + 1], so that [j >= 0] is
    [k = S j] and the loop ends at [j = -1] when [k = 0]. *)
Fixpoint insertion_shift (key : Z) (k : nat) (arr : list Z) : option (list Z) :=
  match k with
  | O => store 0 key arr
  | S j =>
      aj ← arr !! j;
      if aj >? key then
        arr1 ← store (S j) aj arr;
        insertion_shift key j arr1
      else store (S j) key arr
  end.

(** Body of the outer loop: [key = arr[i]; j = i - 1; ...]. *)
Definition insertion_step (arr : list Z) (i : nat) : option (list Z) :=
  key ← arr !! i;
  insertion_shift key i arr.

Definition insertion_sort (arr : list Z) : option (list Z) :=
  for_each insertion_step (range 1 (length arr)) arr.

(** ** Specification-level definitions used by the proofs *)

(** One pass of the inner loop of [bubble_sort] over the segment [a :: l],
    as a function on lists: the segment after the pass and whether a swap
    occurred. *)
Fixpoint bubble_pass (a : Z) (l : list Z) : list Z * bool :=
  match l with
  | [] => ([a], false)
  | b :: l' =>
      if a >? b then (b :: fst (bubble_pass a l'), true)
      else (a :: fst (bubble_pass b l'), snd (bubble_pass b l'))
  end.

(** Invariant of the outer loop of [selection_sort] before iteration [i]:
    every element at an index below [i] is at most every element at a
    later index. *)
Definition sel_inv (i : nat) (arr : list Z) : Prop :=
  ∀ j k a b, (j < i)%nat → (j ≤ k)%nat →
             arr !! j = Some a → arr !! k = Some b → a ≤ b.


(** ** Loop and array lemmas *)

Lemma for_each_app {S X} (body : S → X → option S) xs ys s :
  for_each body (xs ++ ys) s = s' ← for_each body xs s; for_each body ys s'.
Proof.
  revert s. induction xs as [|x xs IH]; intros s; simpl; [done|].
  destruct (body s x) as [s'|]; simpl; [apply IH|done].
Qed.

Lemma store_Some i v arr :
  (i < length arr)%nat → store i v arr = Some (<[i:=v]> arr).
Proof. intros Hi. unfold store. by rewrite decide_True. Qed.

Lemma lookup_at pre (x : Z) post j :
  length pre = j → (pre ++ x :: post) !! j = Some x.
Proof. intros <-. by apply list_lookup_middle. Qed.

Lemma lookup_next pre (x y : Z) post j :
  length pre = j → (pre ++ x :: y :: post) !! (j + 1)%nat = Some y.
Proof.
  intros <-. rewrite (cons_middle x), app_assoc.
  apply list_lookup_middle. rewrite length_app. simpl. lia.
Qed.

Lemma store_at pre x v post j :
  length pre = j → store j v (pre ++ x :: post) = Some (pre ++ v :: post).
Proof.
  intros <-. rewrite store_Some by (rewrite length_app; simpl; lia).
  f_equal. by rewrite insert_app_r_alt, Nat.sub_diag by lia.
Qed.

Lemma store_next pre x y v post j :
  length pre = j →
  store (j + 1) v (pre ++ x :: y :: post) = Some (pre ++ x :: v :: post).
Proof.
  intros Hj. rewrite (cons_middle x), app_assoc.
  rewrite (store_at (pre ++ [x]) y v post) by (rewrite length_app; simpl; lia).
  by rewrite <- app_assoc.
Qed.

(** ** Correctness of bubble_sort *)

Lemma bubble_pass_run l : ∀ pre a rest sw j,
  length pre = j →
  for_each bubble_step (seq j (length l)) (pre ++ a :: l ++ rest, sw)
  = Some (pre ++ fst (bubble_pass a l) ++ rest, sw || snd (bubble_pass a l)).
Proof.
  induction l as [|b l IH]; intros pre a rest sw j Hj.
  { simpl. by rewrite orb_false_r. }
  cbn [length seq for_each bubble_step bubble_pass app].
  rewrite (lookup_at pre a _ j Hj), (lookup_next pre a b _ j Hj). cbn [mbind option_bind].
  destruct (a >? b) eqn:Hab.
  - rewrite (store_at pre a b _ j Hj). cbn [mbind option_bind].
    rewrite (store_next pre b b a _ j Hj). cbn [mbind option_bind fst snd].
    rewrite (cons_middle b pre), app_assoc.
    rewrite (IH (pre ++ [b]) a rest true (S j)) by (rewrite length_app; simpl; lia).
    rewrite <- app_assoc. simpl. by rewrite orb_true_r.
  - cbn [mbind option_bind fst snd].
    rewrite (cons_middle a pre), app_assoc.
    rewrite (IH (pre ++ [a]) b rest sw (S j)) by (rewrite length_app; simpl; lia).
    by rewrite <- app_assoc.
Qed.

Lemma bubble_pass_perm l : ∀ a, fst (bubble_pass a l) ≡ₚ a :: l.
Proof.
  induction l as [|b l IH]; intros a; simpl; [done|].
  destruct (a >? b); simpl.
  - rewrite IH. apply perm_swap.
  - by rewrite IH.
Qed.

Lemma bubble_pass_last l : ∀ a,
  ∃ r mx, fst (bubble_pass a l) = r ++ [mx] ∧ a ≤ mx ∧ Forall (λ x, x ≤ mx) r.
Proof.
  induction l as [|b l IH]; intros a; simpl.
  { exists [], a. split_and!; [done|lia|constructor]. }
  destruct (Z.gtb_spec a b) as [Hab|Hab]; simpl.
  - destruct (IH a) as (r & mx & -> & Ha & Hr).
    exists (b :: r), mx. split_and!; [done|lia|]. constructor; [lia|done].
  - destruct (IH b) as (r & mx & -> & Hb & Hr).
    exists (a :: r), mx. split_and!; [done|lia|]. constructor; [lia|done].
Qed.

Lemma bubble_pass_noswap l : ∀ a,
  snd (bubble_pass a l) = false →
  fst (bubble_pass a l) = a :: l ∧ Sorted Z.le (a :: l).
Proof.
  induction l as [|b l IH]; intros a; simpl.
  { intros _. split; [done|]. repeat constructor. }
  destruct (Z.gtb_spec a b) as [Hab|Hab]; simpl; [done|].
  intros Hs. destruct (IH b Hs) as [-> Hsorted].
  split; [done|]. constructor; [done|]. by constructor.
Qed.

Lemma bubble_outer_spec n k : ∀ i u f,
  length f = i → (length u + i)%nat = n → (i + k)%nat = n →
  StronglySorted Z.le f → (∀ x y, x ∈ u → y ∈ f → x ≤ y) →
  ∃ r, bubble_outer n (seq i k) (u ++ f) = Some r ∧ r ≡ₚ u ++ f ∧
       StronglySorted Z.le r.
Proof.
  induction k as [|k IH]; intros i u f Hf Hu Hk Hsf Huf.
  { assert (u = []) as -> by (apply length_zero_iff_nil; lia).
    exists f. by split_and!. }
  destruct u as [|a l]; [simpl in *; lia|].
  cbn [seq bubble_outer]. unfold range.
  replace (n - i - 1 - 0)%nat with (length l) by (simpl in *; lia).
  rewrite <- app_comm_cons.
  pose proof (bubble_pass_run l [] a f false 0%nat eq_refl) as Hrun.
  cbn [app] in Hrun. rewrite Hrun. clear Hrun.
  cbn [mbind option_bind fst snd app orb].
  destruct (snd (bubble_pass a l)) eqn:Hsw; cbn [negb].
  - destruct (bubble_pass_last l a) as (r & mx & Hr & Ha & Hle).
    pose proof (bubble_pass_perm l a) as Hperm. rewrite Hr in *.
    assert (mx ∈ a :: l) as Hmx.
    { rewrite <- Hperm. apply elem_of_app. right. by apply list_elem_of_singleton. }
    rewrite <- app_assoc. cbn [app].
    destruct (IH (S i) r (mx :: f)) as (r' & Hrun & Hp & Hs).
    + simpl; lia.
    + apply Permutation_length in Hperm. rewrite length_app in Hperm.
      simpl in *. lia.
    + lia.
    + constructor; [done|]. apply Forall_forall. intros y Hy. by apply Huf.
    + intros x y Hx Hy. rewrite Forall_forall in Hle.
      apply elem_of_cons in Hy as [->|Hy]; [by apply Hle|].
      apply Huf; [|done]. rewrite <- Hperm. apply elem_of_app. by left.
    + exists r'. split_and!; [done| |done].
      rewrite Hp, app_comm_cons, <- Hperm, <- app_assoc. done.
  - destruct (bubble_pass_noswap l a Hsw) as [-> Hsorted].
    exists (a :: l ++ f). split_and!; [reflexivity|reflexivity|].
    rewrite app_comm_cons. apply StronglySorted_app_2; [done| |done].
    apply Sorted_StronglySorted; [apply _|done].
Qed.

Lemma bubble_sort_spec s :
  ∃ r, bubble_sort s = Some r ∧ r ≡ₚ s ∧ StronglySorted Z.le r.
Proof.
  unfold bubble_sort, range. rewrite Nat.sub_0_r.
  destruct (bubble_outer_spec (length s) (length s) 0%nat s []) as (r & Hr & Hp & Hs);
    [done|simpl; lia|done|constructor|set_solver|].
  rewrite app_nil_r in *. by exists r.
Qed.

(** ** Correctness of selection_sort *)

Lemma insert_perm_cons (l : list Z) : ∀ j b x,
  l !! j = Some b → b :: <[j:=x]> l ≡ₚ x :: l.
Proof.
  induction l as [|y l IH]; intros [|j] b x Hj; simplify_eq/=.
  - apply perm_swap.
  - rewrite perm_swap, (IH j b x Hj). apply perm_swap.
Qed.

Lemma swap_perm (l : list Z) : ∀ i m ai am,
  l !! i = Some ai → l !! m = Some am → <[m:=ai]> (<[i:=am]> l) ≡ₚ l.
Proof.
  induction l as [|y l IH]; intros [|i] [|m] ai am Hi Hm; simplify_eq/=.
  - done.
  - by apply insert_perm_cons.
  - by apply insert_perm_cons.
  - f_equiv. by apply IH.
Qed.

Lemma lookup_swap (l : list Z) i m ai am p :
  l !! i = Some ai → l !! m = Some am →
  <[m:=ai]> (<[i:=am]> l) !! p =
    if decide (p = m) then Some ai else if decide (p = i) then Some am else l !! p.
Proof.
  intros Hi Hm.
  apply lookup_lt_Some in Hi as Hi'. apply lookup_lt_Some in Hm as Hm'.
  destruct (decide (p = m)) as [->|Hpm].
  { apply list_lookup_insert_eq. by rewrite length_insert. }
  rewrite list_lookup_insert_ne by done.
  destruct (decide (p = i)) as [->|Hpi].
  { by apply list_lookup_insert_eq. }
  by rewrite list_lookup_insert_ne.
Qed.

Lemma select_scan (arr : list Z) i k :
  (i + k < length arr)%nat →
  ∃ m am, for_each (select_step arr) (seq (i + 1) k) i = Some m ∧
          (i ≤ m ≤ i + k)%nat ∧ arr !! m = Some am ∧
          ∀ j aj, (i ≤ j ≤ i + k)%nat → arr !! j = Some aj → am ≤ aj.
Proof.
  induction k as [|k IH]; intros Hk.
  { destruct (lookup_lt_is_Some_2 arr i) as [ai Hai]; [lia|].
    exists i, ai. split_and!; [done|lia|lia|done|].
    intros j aj Hj Haj. assert (j = i) as -> by lia. simplify_eq. lia. }
  destruct IH as (m & am & Hrun & Hm & Ham & Hmin); [lia|].
  rewrite seq_S, for_each_app, Hrun. cbn [mbind option_bind for_each].
  destruct (lookup_lt_is_Some_2 arr (i + 1 + k)) as [aj Haj]; [lia|].
  unfold select_step. rewrite Haj, Ham. cbn [mbind option_bind].
  destruct (Z.ltb_spec aj am) as [Hlt|Hge].
  - exists (i + 1 + k)%nat, aj. split_and!; [done|lia|lia|done|].
    intros j' aj' Hj' Haj'.
    destruct (decide (j' = i + 1 + k)%nat) as [->|Hne]; [simplify_eq; lia|].
    assert (am ≤ aj') by (apply (Hmin j'); [lia|done]). lia.
  - exists m, am. split_and!; [done|lia|lia|done|].
    intros j' aj' Hj' Haj'.
    destruct (decide (j' = i + 1 + k)%nat) as [->|Hne]; [simplify_eq; lia|].
    apply (Hmin j'); [lia|done].
Qed.

Lemma selection_step_spec (arr : list Z) i :
  (i < length arr)%nat → sel_inv i arr →
  ∃ r, selection_step (length arr) arr i = Some r ∧ r ≡ₚ arr ∧ sel_inv (S i) r.
Proof.
  intros Hi Hinv. unfold selection_step, range.
  destruct (select_scan arr i (length arr - (i + 1))) as (m & am & -> & Hm & Ham & Hmin);
    [lia|].
  destruct (lookup_lt_is_Some_2 arr i) as [ai Hai]; [lia|].
  cbn [mbind option_bind]. rewrite Ham, Hai. cbn [mbind option_bind].
  rewrite store_Some by lia. cbn [mbind option_bind].
  rewrite store_Some by (rewrite length_insert; lia).
  eexists. split_and!; [done|by apply swap_perm|].
  assert (∀ p x, (i ≤ p)%nat → arr !! p = Some x → am ≤ x) as Hmin'.
  { intros p x Hp Hx. apply lookup_lt_Some in Hx as Hlt. apply (Hmin p); [lia|done]. }
  intros j k a b Hj Hjk.
  rewrite !(lookup_swap arr i m ai am) by done.
  intros Ha Hb.
  destruct (decide (j = i)) as [Hji|Hji].
  - assert (a = am) as ->.
    { destruct (decide (j = m)) as [Hjm|Hjm].
      - replace m with i in Ham by lia. congruence.
      - congruence. }
    destruct (decide (k = m)) as [Hkm|Hkm]; [|destruct (decide (k = i)) as [Hki|Hki]].
    + injection Hb as <-. by apply (Hmin' i).
    + injection Hb as <-. lia.
    + apply (Hmin' k); [lia|done].
  - assert (j ≠ m) as Hjm by lia.
    rewrite decide_False in Ha by done.
    destruct (decide (k = m)) as [Hkm|Hkm]; [|destruct (decide (k = i)) as [Hki|Hki]].
    + injection Hb as <-. apply (Hinv j i a ai); [lia|lia|done..].
    + injection Hb as <-. apply (Hinv j m a am); [lia|lia|done..].
    + apply (Hinv j k a b); [lia|lia|done..].
Qed.

Lemma selection_outer_spec k : ∀ i (arr : list Z),
  (i + k)%nat = length arr → sel_inv i arr →
  ∃ r, for_each (selection_step (length arr)) (seq i k) arr = Some r ∧
       r ≡ₚ arr ∧ sel_inv (length arr) r.
Proof.
  induction k as [|k IH]; intros i arr Hk Hinv.
  { exists arr. split_and!; [done..|]. by replace (length arr) with i by lia. }
  destruct (selection_step_spec arr i) as (r1 & Hstep & Hp1 & Hinv1); [lia|done|].
  cbn [seq for_each]. rewrite Hstep. cbn [mbind option_bind].
  pose proof (Permutation_length Hp1) as Hlen. rewrite <- Hlen.
  destruct (IH (S i) r1) as (r & Hrun & Hp & Hinvr); [lia|done|].
  exists r. split_and!; [done|by rewrite Hp|done].
Qed.

Lemma lookup_le_StronglySorted (l : list Z) :
  (∀ j k a b, (j ≤ k)%nat → l !! j = Some a → l !! k = Some b → a ≤ b) →
  StronglySorted Z.le l.
Proof.
  induction l as [|x l IH]; intros Hle; constructor.
  - apply IH. intros j k a b Hjk Ha Hb. apply (Hle (S j) (S k)); [lia|done..].
  - apply Forall_forall. intros y Hy.
    apply list_elem_of_lookup in Hy as [k Hk].
    apply (Hle 0%nat (S k)); [lia|done..].
Qed.

Lemma selection_sort_spec s :
  ∃ r, selection_sort s = Some r ∧ r ≡ₚ s ∧ StronglySorted Z.le r.
Proof.
  unfold selection_sort, range. rewrite Nat.sub_0_r.
  destruct (selection_outer_spec (length s) 0%nat s) as (r & Hr & Hp & Hinv).
  { done. } { intros j k a b Hj. lia. }
  exists r. split_and!; [done..|].
  apply lookup_le_StronglySorted. intros j k a b Hjk Ha Hb.
  apply (Hinv j k); [|done..].
  apply lookup_lt_Some in Ha. by rewrite <- (Permutation_length Hp).
Qed.

(** ** Correctness of insertion_sort *)

Lemma insertion_shift_spec k : ∀ l1 x l2 key,
  length l1 = k →
  ∃ la lb, l1 = la ++ lb ∧
    insertion_shift key k (l1 ++ x :: l2) = Some (la ++ key :: lb ++ l2) ∧
    Forall (λ y, key < y) lb ∧ (∀ y, last la = Some y → y ≤ key).
Proof.
  induction k as [|j IH]; intros l1 x l2 key Hlen.
  { apply length_zero_iff_nil in Hlen as ->. exists [], [].
    split_and!; [done|done|constructor|]. intros y Hy. by rewrite last_nil in Hy. }
  destruct l1 as [|a l1' _] using rev_ind; [done|].
  rewrite length_app in Hlen. simpl in Hlen.
  assert (length l1' = j) as Hj by lia.
  cbn [insertion_shift]. rewrite <- app_assoc. cbn [app].
  rewrite (lookup_at l1' a _ j Hj). cbn [mbind option_bind].
  replace (S j) with (j + 1)%nat by lia.
  destruct (Z.gtb_spec a key) as [Hgt|Hle].
  - rewrite (store_next l1' a x a l2 j Hj). cbn [mbind option_bind].
    destruct (IH l1' a (a :: l2) key Hj) as (la & lb & -> & Hrun & Hlb & Hla).
    exists la, (lb ++ [a]). split_and!.
    + by rewrite app_assoc.
    + rewrite Hrun. by rewrite <- (app_assoc lb).
    + apply Forall_app. split; [done|]. repeat constructor. lia.
    + done.
  - rewrite (store_next l1' a x key l2 j Hj).
    exists (l1' ++ [a]), []. split_and!.
    + by rewrite app_nil_r.
    + by rewrite <- app_assoc.
    + constructor.
    + intros y Hy. rewrite last_snoc in Hy. simplify_eq. lia.
Qed.

Lemma StronglySorted_le_last (l : list Z) y x :
  StronglySorted Z.le l → last l = Some y → x ∈ l → x ≤ y.
Proof.
  intros Hs Hlast Hx. apply last_Some in Hlast as [l' ->].
  apply elem_of_app in Hx as [Hx|Hx].
  - apply (StronglySorted_app_1_elem_of _ _ _ _ _ Hs Hx). by apply list_elem_of_singleton.
  - apply list_elem_of_singleton in Hx as ->. lia.
Qed.

Lemma insertion_outer_spec rest : ∀ srt i,
  length srt = i → StronglySorted Z.le srt →
  ∃ r, for_each insertion_step (seq i (length rest)) (srt ++ rest) = Some r ∧
       r ≡ₚ srt ++ rest ∧ StronglySorted Z.le r.
Proof.
  induction rest as [|key rest IH]; intros srt i Hi Hs.
  { exists srt. rewrite app_nil_r. by split_and!. }
  cbn [length seq for_each].
  assert (insertion_step (srt ++ key :: rest) i
          = insertion_shift key i (srt ++ key :: rest)) as ->.
  { unfold insertion_step. by rewrite (lookup_at srt key _ i Hi). }
  destruct (insertion_shift_spec i srt key rest key Hi)
    as (la & lb & -> & -> & Hlb & Hla).
  cbn [mbind option_bind].
  apply StronglySorted_app in Hs as (Hab & Hsa & Hsb).
  rewrite length_app in Hi.
  destruct (IH (la ++ key :: lb) (S i)) as (r & Hrun & Hp & Hsr).
  { rewrite length_app. simpl. lia. }
  { apply StronglySorted_app_2; [|done|].
    - intros y z Hy Hz.
      assert (y ≤ key) as Hyk.
      { destruct (last la) as [w|] eqn:Hw.
        - trans w; [by apply (StronglySorted_le_last la)|by apply Hla].
        - apply last_None in Hw as ->. by apply elem_of_nil in Hy. }
      apply elem_of_cons in Hz as [->|Hz]; [done|].
      rewrite Forall_forall in Hlb. specialize (Hlb z Hz). lia.
    - constructor; [done|]. eapply Forall_impl; [done|]. simpl. lia. }
  rewrite <- app_assoc in Hrun, Hp. cbn [app] in Hrun, Hp.
  exists r. split_and!; [done| |done].
  rewrite Hp, <- !app_assoc. by rewrite (Permutation_middle lb).
Qed.

Lemma insertion_sort_spec s :
  ∃ r, insertion_sort s = Some r ∧ r ≡ₚ s ∧ StronglySorted Z.le r.
Proof.
  unfold insertion_sort, range. destruct s as [|a t].
  { exists []. split_and!; [done..|constructor]. }
  cbn [length]. replace (S (length t) - 1)%nat with (length t) by lia.
  apply (insertion_outer_spec t [a] 1%nat); [done|].
  repeat constructor.
Qed.

(** C1: for every list of integers [s], the three sorts return the same
    list [r] (none of them raises), [r] is non-decreasing and [r] is a
    permutation of [s]. *)
Theorem sorts_agree_sorted_permutation (s : list Z) :
  ∃ r, bubble_sort s = Some r ∧ selection_sort s = Some r ∧
       insertion_sort s = Some r ∧ Sorted Z.le r ∧ r ≡ₚ s.
Proof.
  destruct (bubble_sort_spec s) as (rb & Hb & Hpb & Hsb).
  destruct (selection_sort_spec s) as (rs & Hs & Hps & Hss).
  destruct (insertion_sort_spec s) as (ri & Hi & Hpi & Hsi).
  assert (rs = rb) as ->.
  { apply (StronglySorted_unique Z.le); [done..|]. by rewrite Hps, Hpb. }
  assert (ri = rb) as ->.
  { apply (StronglySorted_unique Z.le); [done..|]. by rewrite Hpi, Hpb. }
  exists rb. split_and!; [done..| |done].
  by apply StronglySorted_Sorted.
Qed.

(** ** Examples *)

Example bubble_sort_run : bubble_sort [3; 1; 2; 5; 4; 1] = Some [1; 1; 2; 3; 4; 5].
Proof. reflexivity. Qed.

Example selection_sort_run : selection_sort [3; 1; 2; 5; 4; 1] = Some [1; 1; 2; 3; 4; 5].
Proof. reflexivity. Qed.

Example insertion_sort_run : insertion_sort [3; -1; 2; 5; 4; -1] = Some [-1; -1; 2; 3; 4; 5].
Proof. reflexivity. Qed.

Example sorts_of_empty :
  bubble_sort [] = Some [] ∧ selection_sort [] = Some [] ∧ insertion_sort [] = Some [].
Proof. by split_and!. Qed.

End Sorting.

(* ===================================================================== *)
(** * Text: Python [str] helpers and the fragment of [re] the code uses   *)
(* ===================================================================== *)

Module Text.

(** ** Character classes (ASCII)

    A text is a sequence of ASCII characters: the classes and the case
    mapping below are those of Python's [str] and [re] on the code points
    below 128.  What depends on them holds of ASCII texts. *)

Definition code (c : ascii) : nat := nat_of_ascii c.

Definition between (lo hi : nat) (c : ascii) : bool :=
  (lo <=? code c)%nat && (code c <=? hi)%nat.

(** The characters of ASCII, and the texts made of them. *)
Definition is_ascii (c : ascii) : bool := (code c <? 128)%nat.

(** [str.isspace] on one character, also the class [\s] of [re]:
    tab to carriage return, the separators 0x1c to 0x1f, and the space. *)
Definition is_space (c : ascii) : bool :=
  between 9 13 c || between 28 31 c || (code c =? 32)%nat.

(** The class [\d]. *)
Definition is_digit (c : ascii) : bool := between 48 57 c.

Definition is_upper (c : ascii) : bool := between 65 90 c.
Definition is_lower (c : ascii) : bool := between 97 122 c.

(** The class [\w]: letters, digits and the underscore. *)
Definition is_word (c : ascii) : bool :=
  is_upper c || is_lower c || is_digit c || (code c =? 95)%nat.

(** [str.lower] on one character. *)
Definition lower_char (c : ascii) : ascii :=
  if is_upper c then ascii_of_nat (code c + 32) else c.

(** ** [str] methods *)

Fixpoint lower (s : string) : string :=
  match s with
  | EmptyString => EmptyString
  | String c s' => String (lower_char c) (lower s')
  end.

Fixpoint lstrip (s : string) : string :=
  match s with
  | EmptyString => EmptyString
  | String c s' => if is_space c then lstrip s' else s
  end.

Fixpoint rstrip (s : string) : string :=
  match s with
  | EmptyString => EmptyString
  | String c s' =>
      match rstrip s' with
      | EmptyString => if is_space c then EmptyString else String c EmptyString
      | r => String c r
      end
  end.

(** [s.strip()] *)
Definition strip (s : string) : string := rstrip (lstrip s).

Fixpoint all_chars (f : ascii → bool) (s : string) : bool :=
  match s with
  | EmptyString => true
  | String c s' => f c && all_chars f s'
  end.

(** [s.isascii()] *)
Definition isascii (s : string) : bool := all_chars is_ascii s.

(** [s.isdigit()]: at least one character and only digits. *)
Definition isdigit (s : string) : bool :=
  match s with
  | EmptyString => false
  | _ => all_chars is_digit s
  end.

Definition digit_value (c : ascii) : Z := Z.of_nat (code c - 48).

Fixpoint int_acc (acc : Z) (s : string) : Z :=
  match s with
  | EmptyString => acc
  | String c s' => int_acc (10 * acc + digit_value c) s'
  end.

(** The number a string of decimal digits writes. *)
Definition decimal_value (s : string) : Z := int_acc 0 s.

(** [sys.get_int_max_str_digits()] as the interpreter starts. *)
Definition int_max_str_digits : N := 4300.

(** The [ValueError] of [int(s)] on a string of too many digits. *)
Inductive int_error :=
  | ExceedsDigitLimit (digits : N).

(** [int(s)] for a string of decimal digits: its value, unless the string
    has more digits than the limit. *)
Definition int_of_digits (s : string) : int_error + Z :=
  let digits := N.of_nat (String.length s) in
  if (int_max_str_digits <? digits)%N then inl (ExceedsDigitLimit digits)
  else inr (decimal_value s).

(** [s.startswith(piece)] *)
Fixpoint startswith (piece s : string) : bool :=
  match piece, s with
  | EmptyString, _ => true
  | String c piece', String x s' => Ascii.eqb c x && startswith piece' s'
  | String _ _, EmptyString => false
  end.

(** [piece in s] *)
Fixpoint contains (piece s : string) : bool :=
  startswith piece s ||
  match s with
  | EmptyString => false
  | String _ s' => contains piece s'
  end.

(** [sep.join(parts)] *)
Fixpoint join (sep : string) (parts : list string) : string :=
  match parts with
  | [] => ""
  | [p] => p
  | p :: ps => p +:+ sep +:+ join sep ps
  end.

(** ** Regular expressions

    The patterns of [opt.py] are sequences of three kinds of items: the
    assertion [\b], a literal character, and a greedy repetition [\s+] or
    [\d+] of a character class.  A pattern is kept as the list of its items
    (what [re] compiles its source text to); the alternation
    ["|".join(patterns)] is the list of the alternatives. *)

Inductive charclass := ClsSpace | ClsDigit.

Definition in_class (k : charclass) (c : ascii) : bool :=
  match k with
  | ClsSpace => is_space c
  | ClsDigit => is_digit c
  end.

Inductive atom :=
  | Bnd                    (* \b *)
  | Lit (c : ascii)        (* one literal character *)
  | Plus (k : charclass).  (* \s+ or \d+ *)

Definition pattern := list atom.

(** The pattern of the literal text [k]: every character stands for
    itself. *)
Fixpoint literal (k : string) : pattern :=
  match k with
  | EmptyString => []
  | String c k' => Lit c :: literal k'
  end.

(** *** From the source text of a pattern to its items *)

Definition is_alnum (c : ascii) : bool := is_upper c || is_lower c || is_digit c.

Fixpoint has_char (c : ascii) (s : string) : bool :=
  match s with
  | EmptyString => false
  | String x s' => Ascii.eqb c x || has_char c s'
  end.

(** The characters [re.escape] puts a backslash before: the special
    characters [()[]{}?*+-|^$\.&~#] and the blanks (space, tab, newline,
    carriage return, vertical tab, form feed). *)
Definition needs_escape (c : ascii) : bool :=
  has_char c "()[]{}?*+-|^$\.&~# " || between 9 13 c.

(** [re.escape(k)] *)
Fixpoint re_escape (k : string) : string :=
  match k with
  | EmptyString => EmptyString
  | String c k' =>
      if needs_escape c then String "\" (String c (re_escape k'))
      else String c (re_escape k')
  end.

(** The characters with a meaning of their own in a pattern, the
    backslash and the bar apart. *)
Definition is_special (c : ascii) : bool := has_char c ".[{()*+?^$".

(** The classes [\s] and [\d]. *)
Definition class_of (c : ascii) : option charclass :=
  if Ascii.eqb c "s" then Some ClsSpace
  else if Ascii.eqb c "d" then Some ClsDigit
  else None.

(** The alternatives of a pattern: the first one and the ones after it. *)
Definition alternatives : Type := pattern * list pattern.

Definition alts (r : alternatives) : list pattern := fst r :: snd r.

Definition push (a : atom) (r : alternatives) : alternatives := (a :: fst r, snd r).

Definition bar (r : alternatives) : alternatives := ([], alts r).

(** [re.compile] on the syntax the patterns of [opt.py] are written in:
    [|] between alternatives, [\b], [\s+] and [\d+], a backslash before a
    character that is no letter or digit for that character, and any
    character without a meaning of its own for itself.  [None] stands for
    a pattern outside this syntax. *)
Fixpoint parse (src : string) : option alternatives :=
  match src with
  | EmptyString => Some ([], [])
  | String c s1 =>
      if Ascii.eqb c "|" then bar <$> parse s1
      else if Ascii.eqb c "\" then
        match s1 with
        | EmptyString => None
        | String e s2 =>
            if Ascii.eqb e "b" then push Bnd <$> parse s2
            else if is_alnum e then
              match class_of e, s2 with
              | Some k, String q s3 =>
                  if Ascii.eqb q "+" then push (Plus k) <$> parse s3 else None
              | _, _ => None
              end
            else push (Lit e) <$> parse s2
        end
      else if is_special c then None
      else push (Lit c) <$> parse s1
  end.

(** Literal comparison under [re.IGNORECASE]. *)
Definition same_caseless (c x : ascii) : bool :=
  bool_decide (lower_char c = lower_char x).

Definition word_before (prev : option ascii) : bool :=
  match prev with
  | Some c => is_word c
  | None => false
  end.

Definition word_after (s : string) : bool :=
  match s with
  | String c _ => is_word c
  | EmptyString => false
  end.

(** [\b] holds between a word character and a non-word character, the two
    ends of the text counting as non-word. *)
Definition at_boundary (prev : option ascii) (s : string) : bool :=
  xorb (word_before prev) (word_after s).

(** The rest of a greedy repetition, after its first character [prev]:
    take one more character of the class when that leads to a match, else
    continue with the rest [k] of the pattern (backtracking). *)
Fixpoint match_more (cls : charclass) (k : option ascii → string → option string)
    (prev : ascii) (s : string) : option string :=
  match s with
  | String y s' =>
      if in_class cls y then
        match match_more cls k y s' with
        | Some g => Some (String y g)
        | None => k (Some prev) s
        end
      else k (Some prev) s
  | EmptyString => k (Some prev) s
  end.

(** Match pattern [p] at the current position: [prev] is the character
    before it, [s] the text from it on.  The result is the matched text
    ([match.group()]). *)
Fixpoint match_here (p : pattern) : option ascii → string → option string :=
  match p with
  | [] => λ _ _, Some EmptyString
  | Bnd :: p' => λ prev s,
      if at_boundary prev s then match_here p' prev s else None
  | Lit c :: p' => λ prev s,
      match s with
      | String x s' =>
          if same_caseless c x then String x <$> match_here p' (Some x) s'
          else None
      | EmptyString => None
      end
  | Plus cls :: p' => λ prev s,
      match s with
      | String x s' =>
          if in_class cls x then String x <$> match_more cls (match_here p') x s'
          else None
      | EmptyString => None
      end
  end.

(** The alternation at one position: the first alternative that matches. *)
Fixpoint match_any (ps : list pattern) (prev : option ascii) (s : string)
    : option string :=
  match ps with
  | [] => None
  | p :: ps' =>
      match match_here p prev s with
      | Some g => Some g
      | None => match_any ps' prev s
      end
  end.

(** Scan the start positions from left to right, the end of the text
    included. *)
Fixpoint search_from (ps : list pattern) (prev : option ascii) (s : string)
    : option string :=
  match match_any ps prev s with
  | Some g => Some g
  | None =>
      match s with
      | String x s' => search_from ps (Some x) s'
      | EmptyString => None
      end
  end.

(** The search of the alternatives [ps] in [text]. *)
Definition search (ps : list pattern) (text : string) : option string :=
  search_from ps None text.

(** The outcome of [re.search]: the pattern is refused, or nothing
    matches, or [match.group()]. *)
Inductive re_result :=
  | ReError
  | NoMatch
  | Match (group : string).

(** [re.search(src, text, re.IGNORECASE)] *)
Definition re_search (src text : string) : re_result :=
  match parse src with
  | None => ReError
  | Some r =>
      match search (alts r) text with
      | Some group => Match group
      | None => NoMatch
      end
  end.

(** A text before the text a computation returns, if it returns. *)
Definition prefixed {E : Type} (w : string) (m : E + string) : E + string :=
  match m with
  | inl e => inl e
  | inr rest => inr (w +:+ rest)
  end.

(** [re.sub(p, repl, text)] for a pattern that matches no empty text and a
    function [repl] that can raise: [skip] counts the characters of a
    replaced match still to pass.  The matches are replaced from left to
    right, and the first error of [repl] ends the call. *)
Fixpoint sub_from {E : Type} (p : pattern) (repl : string → E + string)
    (skip : nat) (prev : option ascii) (s : string) : E + string :=
  match s with
  | EmptyString => inr EmptyString
  | String x s' =>
      match skip with
      | S n => sub_from p repl n (Some x) s'
      | O =>
          match match_here p prev s with
          | Some (String _ g' as g) =>
              match repl g with
              | inl e => inl e
              | inr replacement =>
                  prefixed replacement
                    (sub_from p repl (String.length g') (Some x) s')
              end
          | _ => prefixed (String x "") (sub_from p repl 0 (Some x) s')
          end
      end
  end.

(** [re.sub] with the items [p] of its pattern. *)
Definition re_sub {E : Type} (p : pattern) (repl : string → E + string)
    (text : string) : E + string :=
  sub_from p repl 0 None text.

(** ** What a match is, independently of the matcher *)

(** [matches p prev g rest]: at a position preceded by [prev] and followed
    by [g +:+ rest], pattern [p] can match exactly [g]. *)
Inductive matches : pattern → option ascii → string → string → Prop :=
  | matches_nil prev rest :
      matches [] prev "" rest
  | matches_bnd p prev g rest :
      at_boundary prev (g +:+ rest) = true →
      matches p prev g rest →
      matches (Bnd :: p) prev g rest
  | matches_lit p c x prev g rest :
      same_caseless c x = true →
      matches p (Some x) g rest →
      matches (Lit c :: p) prev (String x g) rest
  | matches_plus_one p cls x prev g rest :
      in_class cls x = true →
      matches p (Some x) g rest →
      matches (Plus cls :: p) prev (String x g) rest
  | matches_plus_more p cls x prev g rest :
      in_class cls x = true →
      matches (Plus cls :: p) (Some x) g rest →
      matches (Plus cls :: p) prev (String x g) rest.

(** The last character of [pre], or of nothing. *)
Fixpoint last_char (prev : option ascii) (pre : string) : option ascii :=
  match pre with
  | EmptyString => prev
  | String c pre' => last_char (Some c) pre'
  end.

(** [occurs p text g]: pattern [p] matches the piece [g] somewhere in
    [text]. *)
Definition occurs (p : pattern) (text g : string) : Prop :=
  ∃ pre rest, text = pre +:+ g +:+ rest ∧ matches p (last_char None pre) g rest.

(** [g] is a piece of [text] equal to [k] up to the case of letters. *)
Definition contains_caseless (k text g : string) : Prop :=
  (∃ pre rest, text = pre +:+ g +:+ rest) ∧ lower g = lower k.

(** ** String lemmas *)

Lemma app_cons x s t : String x s +:+ t = String x (s +:+ t).
Proof. done. Qed.

Lemma app_empty_l s : "" +:+ s = s.
Proof. done. Qed.

Lemma app_empty_r s : s +:+ "" = s.
Proof. induction s as [|c s IH]; [done|]. by rewrite app_cons, IH. Qed.

Lemma app_assoc_s s t u : (s +:+ t) +:+ u = s +:+ t +:+ u.
Proof. induction s as [|c s IH]; [done|]. by rewrite !app_cons, IH. Qed.

Lemma last_char_app prev pre c :
  last_char prev (pre +:+ String c "") = Some c.
Proof.
  revert prev. induction pre as [|d pre IH]; intros prev; [done|].
  rewrite app_cons. simpl. apply IH.
Qed.

Lemma lower_app s t : lower (s +:+ t) = lower s +:+ lower t.
Proof. induction s as [|c s IH]; [done|]. rewrite !app_cons. simpl. by rewrite IH. Qed.

Lemma same_caseless_true c x :
  same_caseless c x = true ↔ lower_char c = lower_char x.
Proof. unfold same_caseless. apply bool_decide_eq_true. Qed.

(** ** The source text of escaped keywords and of joined patterns *)

Lemma parse_escaped_char c s :
  needs_escape c = true →
  parse (String "\" (String c s)) = push (Lit c) <$> parse s.
Proof.
  intros Hc.
  destruct c as [[] [] [] [] [] [] [] []]; vm_compute in Hc;
    first [discriminate Hc|reflexivity].
Qed.

Lemma parse_plain_char c s :
  needs_escape c = false →
  parse (String c s) = push (Lit c) <$> parse s.
Proof.
  intros Hc.
  destruct c as [[] [] [] [] [] [] [] []]; vm_compute in Hc;
    first [discriminate Hc|reflexivity].
Qed.

(** An escaped keyword is read back as the literal pattern of the
    keyword. *)
Lemma parse_re_escape k : parse (re_escape k) = Some (literal k, []).
Proof.
  induction k as [|c k IH]; [done|].
  cbn [re_escape literal]. destruct (needs_escape c) eqn:Hc.
  - by rewrite (parse_escaped_char c _ Hc), IH.
  - by rewrite (parse_plain_char c _ Hc), IH.
Qed.

(** A bar after a well-formed pattern starts the alternatives of what
    follows it. *)
Lemma parse_app_bar s2 n : ∀ s1 r1,
  (String.length s1 ≤ n)%nat → parse s1 = Some r1 →
  parse (s1 +:+ String "|" s2) =
    r2 ← parse s2; Some (fst r1, snd r1 ++ alts r2).
Proof.
  assert (∀ (f : alternatives → alternatives) s r1,
    (∀ r l, f (fst r, snd r ++ l) = (fst (f r), snd (f r) ++ l)) →
    parse (s +:+ String "|" s2) = (r2 ← parse s2; Some (fst r1, snd r1 ++ alts r2)) →
    f <$> parse (s +:+ String "|" s2) =
      r2 ← parse s2; Some (fst (f r1), snd (f r1) ++ alts r2)) as Hstep.
  { intros f s r1 Hf ->. destruct (parse s2) as [r2|]; [|done].
    simpl. by rewrite <- Hf. }
  induction n as [|n IH]; intros s1 r1 Hlen Hparse.
  { destruct s1; [|simpl in Hlen; lia]. simpl in Hparse. simplify_eq.
    rewrite app_empty_l. cbn [parse]. replace (Ascii.eqb "|" "|") with true by done.
    by destruct (parse s2). }
  destruct s1 as [|c s1].
  { simpl in Hparse. simplify_eq.
    rewrite app_empty_l. cbn [parse]. replace (Ascii.eqb "|" "|") with true by done.
    by destruct (parse s2). }
  simpl in Hlen. rewrite app_cons. cbn [parse] in *.
  destruct (Ascii.eqb c "|").
  { destruct (parse s1) as [r|] eqn:Hr; simplify_eq/=.
    apply (Hstep bar); [done|]. apply IH; [lia|done]. }
  destruct (Ascii.eqb c "\").
  - destruct s1 as [|e s1]; [done|]. simpl in Hlen. rewrite app_cons.
    destruct (Ascii.eqb e "b").
    { destruct (parse s1) as [r|] eqn:Hr; simplify_eq/=.
      apply (Hstep (push Bnd)); [done|]. apply IH; [lia|done]. }
    destruct (is_alnum e).
    + destruct (class_of e) as [k|]; [|done].
      destruct s1 as [|q s1]; [done|]. simpl in Hlen. rewrite app_cons.
      destruct (Ascii.eqb q "+"); [|done].
      destruct (parse s1) as [r|] eqn:Hr; simplify_eq/=.
      apply (Hstep (push (Plus k))); [done|]. apply IH; [lia|done].
    + destruct (parse s1) as [r|] eqn:Hr; simplify_eq/=.
      apply (Hstep (push (Lit e))); [done|]. apply IH; [lia|done].
  - destruct (is_special c); [done|].
    destruct (parse s1) as [r|] eqn:Hr; simplify_eq/=.
    apply (Hstep (push (Lit c))); [done|]. apply IH; [lia|done].
Qed.

(** ["|".join(srcs)] has the alternatives of its parts: here each part is
    one alternative. *)
Lemma parse_join srcs : ∀ ps,
  Forall2 (λ src p, parse src = Some (p, [])) srcs ps →
  srcs ≠ [] →
  ∃ r, parse (join "|" srcs) = Some r ∧ alts r = ps.
Proof.
  induction srcs as [|src srcs IH]; intros ps Hall Hne; [done|].
  apply Forall2_cons_inv_l in Hall as (p & ps' & Hp & Hall & ->).
  destruct srcs as [|src' srcs].
  { apply Forall2_nil_inv_l in Hall as ->. by exists (p, []). }
  destruct (IH ps' Hall) as (r & Hr & <-); [done|].
  change (join "|" (src :: src' :: srcs))
    with (src +:+ String "|" (join "|" (src' :: srcs))).
  rewrite (parse_app_bar _ _ src (p, []) (le_n _) Hp), Hr.
  by eexists.
Qed.

(** ** The matcher finds exactly the matches *)

Lemma match_more_sound cls p k :
  (∀ prev s g, k prev s = Some g → ∃ rest, s = g +:+ rest ∧ matches p prev g rest) →
  ∀ s x g prev0, in_class cls x = true → match_more cls k x s = Some g →
    ∃ rest, s = g +:+ rest ∧ matches (Plus cls :: p) prev0 (String x g) rest.
Proof.
  intros Hk. induction s as [|y s IH]; intros x g prev0 Hx Hrun; simpl in Hrun.
  { apply Hk in Hrun as (rest & -> & Hm). exists rest. split; [done|].
    by apply matches_plus_one. }
  destruct (in_class cls y) eqn:Hy.
  - destruct (match_more cls k y s) as [g1|] eqn:Hg1.
    + simplify_eq. destruct (IH y g1 (Some x) Hy Hg1) as (rest & -> & Hm).
      exists rest. split; [done|]. by apply matches_plus_more.
    + apply Hk in Hrun as (rest & -> & Hm). exists rest. split; [done|].
      by apply matches_plus_one.
  - apply Hk in Hrun as (rest & -> & Hm). exists rest. split; [done|].
    by apply matches_plus_one.
Qed.

Lemma match_here_sound p : ∀ prev s g,
  match_here p prev s = Some g → ∃ rest, s = g +:+ rest ∧ matches p prev g rest.
Proof.
  induction p as [|a p IH]; intros prev s g Hrun.
  { simpl in Hrun. simplify_eq. exists s. split; [done|]. constructor. }
  destruct a as [|c|cls]; simpl in Hrun.
  - destruct (at_boundary prev s) eqn:Hb; [|done].
    apply IH in Hrun as (rest & -> & Hm). exists rest. split; [done|].
    by constructor.
  - destruct s as [|x s]; [done|].
    destruct (same_caseless c x) eqn:Hc; [|done].
    destruct (match_here p (Some x) s) as [g1|] eqn:Hg1; simplify_eq/=.
    apply IH in Hg1 as (rest & -> & Hm). exists rest. split; [done|].
    by constructor.
  - destruct s as [|x s]; [done|].
    destruct (in_class cls x) eqn:Hx; [|done].
    destruct (match_more cls (match_here p) x s) as [g1|] eqn:Hg1; simplify_eq/=.
    destruct (match_more_sound cls p (match_here p) IH s x g1 prev Hx Hg1)
      as (rest & -> & Hm).
    by exists rest.
Qed.

Lemma match_more_stop cls k x s :
  is_Some (k (Some x) s) → is_Some (match_more cls k x s).
Proof.
  intros Hk. destruct s as [|y s]; simpl; [done|].
  destruct (in_class cls y); [|done].
  by destruct (match_more cls k y s).
Qed.

Lemma match_here_complete p prev g rest :
  matches p prev g rest → is_Some (match_here p prev (g +:+ rest)).
Proof.
  induction 1 as [prev rest|p prev g rest Hb _ IH|p c x prev g rest Hc _ IH
                 |p cls x prev g rest Hx _ IH|p cls x prev g rest Hx Hm IH].
  - done.
  - simpl. by rewrite Hb.
  - rewrite app_cons. simpl. rewrite Hc. by apply fmap_is_Some.
  - rewrite app_cons. simpl. rewrite Hx. apply fmap_is_Some.
    by apply match_more_stop.
  - rewrite app_cons. simpl. rewrite Hx. apply fmap_is_Some.
    destruct (g +:+ rest) as [|y s]; simpl in IH; [by destruct IH|].
    simpl. destruct (in_class cls y); [|by destruct IH].
    apply fmap_is_Some in IH. by destruct (match_more cls (match_here p) y s).
Qed.

Lemma match_any_Some ps prev s g :
  match_any ps prev s = Some g → ∃ p, p ∈ ps ∧ match_here p prev s = Some g.
Proof.
  induction ps as [|p ps IH]; simpl; [done|].
  destruct (match_here p prev s) as [g1|] eqn:Hg1.
  - intros ?; simplify_eq. exists p. split; [left|done].
  - intros (q & Hq & Hrun)%IH. exists q. split; [by right|done].
Qed.

Lemma match_any_is_Some ps prev s p :
  p ∈ ps → is_Some (match_here p prev s) → is_Some (match_any ps prev s).
Proof.
  induction ps as [|q ps IH]; intros Hp Hrun; [by apply elem_of_nil in Hp|].
  simpl. apply elem_of_cons in Hp as [->|Hp].
  - by destruct Hrun as [g ->].
  - destruct (match_here q prev s); [done|]. by apply IH.
Qed.

Lemma search_from_sound ps : ∀ s prev g,
  search_from ps prev s = Some g →
  ∃ p pre rest, p ∈ ps ∧ s = pre +:+ g +:+ rest ∧
                matches p (last_char prev pre) g rest.
Proof.
  assert (∀ s prev g, match_any ps prev s = Some g →
    ∃ p pre rest, p ∈ ps ∧ s = pre +:+ g +:+ rest ∧
                  matches p (last_char prev pre) g rest) as Hhere.
  { intros s prev g (p & Hp & Hrun)%match_any_Some.
    apply match_here_sound in Hrun as (rest & -> & Hm).
    by exists p, "", rest. }
  induction s as [|x s IH]; intros prev g Hrun; simpl in Hrun.
  - destruct (match_any ps prev "") eqn:Hany; [|done].
    simplify_eq. by apply Hhere.
  - destruct (match_any ps prev (String x s)) eqn:Hany.
    + simplify_eq. by apply Hhere.
    + apply IH in Hrun as (p & pre & rest & Hp & -> & Hm).
      by exists p, (String x pre), rest.
Qed.

Lemma search_from_complete ps p g rest : ∀ pre prev,
  p ∈ ps → matches p (last_char prev pre) g rest →
  is_Some (search_from ps prev (pre +:+ g +:+ rest)).
Proof.
  assert (∀ prev s, is_Some (match_any ps prev s) → is_Some (search_from ps prev s))
    as Hhere.
  { intros prev s [g1 Hg1]. destruct s; simpl; by rewrite Hg1. }
  induction pre as [|x pre IH]; intros prev Hp Hm.
  - rewrite app_empty_l. simpl in Hm.
    apply Hhere, (match_any_is_Some _ _ _ p Hp).
    by apply match_here_complete.
  - rewrite app_cons. simpl.
    destruct (match_any ps prev (String x (pre +:+ g +:+ rest))); [done|].
    by apply IH.
Qed.

(** The search returns a piece of the text that one of the alternatives
    matches, and returns nothing only when no alternative matches
    anywhere. *)
Lemma search_Some ps text g :
  search ps text = Some g → ∃ p, p ∈ ps ∧ occurs p text g.
Proof.
  intros (p & pre & rest & Hp & -> & Hm)%search_from_sound.
  exists p. split; [done|]. by exists pre, rest.
Qed.

Lemma search_None ps text :
  search ps text = None → ∀ p g, p ∈ ps → ¬ occurs p text g.
Proof.
  intros Hnone p g Hp (pre & rest & -> & Hm).
  destruct (search_from_complete ps p g rest pre None Hp Hm) as [g1 Hg1].
  unfold search in Hnone. congruence.
Qed.

(** ** Literal patterns match their text, up to case *)

Lemma matches_literal k : ∀ prev g rest,
  matches (literal k) prev g rest ↔ lower g = lower k.
Proof.
  induction k as [|c k IH]; intros prev g rest; simpl.
  - split.
    + inversion 1. done.
    + destruct g; [|done]. intros _. constructor.
  - split.
    + inversion 1 as [| |p c' x prev' g' rest' Hc Hm| |]; simplify_eq/=.
      apply same_caseless_true in Hc. apply IH in Hm. congruence.
    + destruct g as [|x g]; [done|]. simpl. intros [= Hx Hg].
      constructor; [by apply same_caseless_true|by apply IH].
Qed.

Lemma occurs_literal k text g :
  occurs (literal k) text g ↔ contains_caseless k text g.
Proof.
  unfold occurs, contains_caseless. split.
  - intros (pre & rest & -> & Hm%matches_literal). eauto.
  - intros [(pre & rest & ->) Hg]. exists pre, rest. split; [done|].
    by apply matches_literal.
Qed.

End Text.


(* ===================================================================== *)
(** * Text safety: [sanitize_text]                                       *)
(* ===================================================================== *)

Module Sanitize.

Import Text.

(** The Python values a caller can pass as [more_keywords]. *)
Inductive pyval :=
  | PyNone
  | PyBool (b : bool)
  | PyInt (n : Z)
  | PyStr (s : string)
  | PyList (items : list pyval)
  | PyTuple (items : list pyval).

(** [isinstance(v, list)] *)
Definition isinstance_list (v : pyval) : bool :=
  match v with
  | PyList _ => true
  | _ => false
  end.

(** [isinstance(v, str)] *)
Definition isinstance_str (v : pyval) : bool :=
  match v with
  | PyStr _ => true
  | _ => false
  end.

(** The items [for k in v] yields, for the values that hold items. *)
Definition py_items (v : pyval) : list pyval :=
  match v with
  | PyList items | PyTuple items => items
  | _ => []
  end.

(** The text of a [str] value. *)
Definition str_value (v : pyval) : option string :=
  match v with
  | PyStr s => Some s
  | _ => None
  end.

Inductive exn :=
  | TypeError (msg : string)
  | PatternError (pattern : string).   (* [re.error]: the pattern is refused *)

Definition BLACKLISTED_KEYWORDS : list string :=
  [ "\bimport\b"; "\bexec\b"; "\beval\b"; "\bsystem\("; "\bos\.";
    "\bsubprocess\."; "\brm\s+-rf\b"; "\brmdir\b"; "\bdel\b";
    "\bopen\("; "\bwrite\("; "\bread\("; "\bchmod\b"; "\bchown\b" ].

(** [escaped_keywords = [re.escape(k) for k in more_keywords]] *)
Definition escaped_keywords (more_keywords : pyval) : list string :=
  re_escape <$> omap str_value (py_items more_keywords).

(** [combined_pattern = "|".join(BLACKLISTED_KEYWORDS + escaped_keywords)] *)
Definition combined_pattern (more_keywords : pyval) : string :=
  join "|" (BLACKLISTED_KEYWORDS ++ escaped_keywords more_keywords).

Definition log_message (text group : string) : string :=
  "Blocked potentially dangerous input: '" +:+ text +:+
  "' matches keyword '" +:+ group +:+ "'".

Definition sanitize_text (text : string) (more_keywords : pyval)
    : exn + (string * string) :=
  if negb (isinstance_list more_keywords)
     || negb (forallb isinstance_str (py_items more_keywords))
  then inl (TypeError "more_keywords must be a list of strings")
  else
    match re_search (combined_pattern more_keywords) text with
    | ReError => inl (PatternError (combined_pattern more_keywords))
    | Match group => inr ("", log_message text group)
    | NoMatch => inr (text, "")
    end.

(** ** Notions the contract is stated with *)

(** A list of strings as the Python value the caller passes. *)
Definition keyword_list (ks : list string) : pyval := PyList (PyStr <$> ks).

(** Python's sequences of strings: a list or a tuple whose items are all
    strings, and a string itself (its items are its characters). *)
Definition is_sequence_of_strings (v : pyval) : bool :=
  match v with
  | PyList items | PyTuple items => forallb isinstance_str items
  | PyStr _ => true
  | _ => false
  end.

Definition word (w : string) : pattern := literal w.

(** The items of the fourteen patterns of [BLACKLISTED_KEYWORDS]. *)
Definition DENYLIST : list pattern :=
  [ Bnd :: word "import" ++ [Bnd];
    Bnd :: word "exec" ++ [Bnd];
    Bnd :: word "eval" ++ [Bnd];
    Bnd :: word "system(";
    Bnd :: word "os.";
    Bnd :: word "subprocess.";
    Bnd :: word "rm" ++ Plus ClsSpace :: word "-rf" ++ [Bnd];
    Bnd :: word "rmdir" ++ [Bnd];
    Bnd :: word "del" ++ [Bnd];
    Bnd :: word "open(";
    Bnd :: word "write(";
    Bnd :: word "read(";
    Bnd :: word "chmod" ++ [Bnd];
    Bnd :: word "chown" ++ [Bnd] ].

(** [hit ks text g]: the piece [g] of [text] matches a pattern of the
    denylist, or is one of the keywords [ks] up to case. *)
Definition hit (ks : list string) (text g : string) : Prop :=
  (∃ p, p ∈ DENYLIST ∧ occurs p text g) ∨
  (∃ k, k ∈ ks ∧ contains_caseless k text g).

(** ** The guard on [more_keywords] *)

Lemma str_items_keyword_list ks :
  omap str_value (py_items (keyword_list ks)) = ks.
Proof.
  unfold keyword_list. cbn [py_items].
  induction ks as [|k ks IH]; [done|]. csimpl. by rewrite IH.
Qed.

Lemma all_str_keyword_list ks : forallb isinstance_str (PyStr <$> ks) = true.
Proof. induction ks as [|k ks IH]; [done|]. simpl. apply IH. Qed.

Lemma all_str_inv items :
  forallb isinstance_str items = true → ∃ ks, items = PyStr <$> ks.
Proof.
  induction items as [|v items IH]; simpl.
  { intros _. by exists []. }
  intros [Hv Hitems]%andb_true_iff.
  destruct (IH Hitems) as [ks ->]. destruct v; try done.
  by exists (s :: ks).
Qed.

(** The guard lets exactly the lists of strings through. *)
Lemma guard_passes_iff v :
  negb (isinstance_list v) || negb (forallb isinstance_str (py_items v)) = false
  ↔ ∃ ks, v = keyword_list ks.
Proof.
  split.
  - intros [Hl Hs]%orb_false_iff.
    apply negb_false_iff in Hl. apply negb_false_iff in Hs.
    destruct v; try done. simpl in Hs.
    destruct (all_str_inv _ Hs) as [ks ->]. by exists ks.
  - intros [ks ->]. simpl. by rewrite all_str_keyword_list.
Qed.

(** ** The combined pattern *)

Lemma parse_blacklisted :
  Forall2 (λ src p, parse src = Some (p, [])) BLACKLISTED_KEYWORDS DENYLIST.
Proof. repeat constructor. Qed.

Lemma parse_escaped ks :
  Forall2 (λ src p, parse src = Some (p, [])) (re_escape <$> ks) (literal <$> ks).
Proof.
  induction ks as [|k ks IH]; constructor; [apply parse_re_escape|done].
Qed.

(** The combined pattern is accepted, and its alternatives are the
    fourteen patterns followed by the keywords as literal patterns. *)
Lemma parse_combined_pattern ks :
  ∃ r, parse (combined_pattern (keyword_list ks)) = Some r ∧
       alts r = DENYLIST ++ (literal <$> ks).
Proof.
  unfold combined_pattern, escaped_keywords. rewrite str_items_keyword_list.
  apply parse_join; [|done].
  apply Forall2_app; [apply parse_blacklisted|apply parse_escaped].
Qed.

Lemma sanitize_text_keyword_list text ks :
  sanitize_text text (keyword_list ks) =
    match search (DENYLIST ++ (literal <$> ks)) text with
    | Some group => inr ("", log_message text group)
    | None => inr (text, "")
    end.
Proof.
  unfold sanitize_text, re_search.
  rewrite (proj2 (guard_passes_iff (keyword_list ks))) by eauto.
  destruct (parse_combined_pattern ks) as (r & -> & ->).
  by destruct (search _ text).
Qed.

(** ** What the combined pattern matches *)

Lemma hit_alternatives ks text g :
  hit ks text g ↔
  ∃ p, p ∈ DENYLIST ++ (literal <$> ks) ∧ occurs p text g.
Proof.
  unfold hit. split.
  - intros [(p & Hp & Ho)|(k & Hk & Ho)].
    + exists p. split; [|done]. apply elem_of_app. by left.
    + exists (literal k). split; [|by apply occurs_literal].
      apply elem_of_app. right. apply list_elem_of_fmap. eauto.
  - intros (p & [Hp|Hp]%elem_of_app & Ho).
    + left. eauto.
    + apply list_elem_of_fmap in Hp as (k & -> & Hk).
      right. exists k. split; [done|]. by apply occurs_literal.
Qed.

Lemma log_message_not_empty text g : log_message text g ≠ "".
Proof. unfold log_message. by rewrite app_cons. Qed.



(** C2 as stated fails: the diagnostic names the text and the piece of it
    that matched, not the pattern.  For ["IMPORT os"] it ends in
    [matches keyword 'IMPORT'] and holds none of the fourteen patterns;
    for ["a BaNaNa split"] with the keyword ["banana"] it holds neither
    the keyword nor its escaped form. *)
Lemma sanitize_text_diagnostic_names_the_match :
  (∃ m, sanitize_text "IMPORT os" (keyword_list []) = inr ("", m) ∧
        m = "Blocked potentially dangerous input: 'IMPORT os' matches keyword 'IMPORT'" ∧
        forallb (λ p, negb (contains p m)) BLACKLISTED_KEYWORDS = true ∧
        contains "import" m = false) ∧
  (∃ m, sanitize_text "a BaNaNa split" (keyword_list ["banana"]) = inr ("", m) ∧
        m = "Blocked potentially dangerous input: 'a BaNaNa split' matches keyword 'BaNaNa'" ∧
        forallb (λ p, negb (contains p m))
          (BLACKLISTED_KEYWORDS ++ escaped_keywords (keyword_list ["banana"])) = true ∧
        contains "banana" m = false).
Proof. split; eexists; split_and!; vm_compute; reflexivity. Qed.

(** C7, as the code has it: [sanitize_text] raises the [TypeError] exactly
    when [more_keywords] is not a list whose items are all strings, and
    then for every text alike (the text is not looked at); for a list of
    strings it returns a result. *)
Theorem sanitize_text_type_error (v : pyval) :
  ((¬ ∃ ks, v = keyword_list ks) →
     ∀ text, sanitize_text text v
             = inl (TypeError "more_keywords must be a list of strings")) ∧
  ((∃ ks, v = keyword_list ks) →
     ∀ text, ∃ r, sanitize_text text v = inr r).
Proof.
  split.
  - intros Hno text. unfold sanitize_text.
    destruct (negb (isinstance_list v) || _) eqn:Hguard; [done|].
    by apply guard_passes_iff in Hguard.
  - intros [ks ->] text. rewrite sanitize_text_keyword_list.
    destruct (search _ text); eauto.
Qed.

Lemma sanitize_text_type_error_witness :
  sanitize_text "safe text" (PyList [PyStr "banana"; PyInt 3])
  = inl (TypeError "more_keywords must be a list of strings") ∧
  ∃ r, sanitize_text "safe text" (PyList [PyStr "banana"]) = inr r.
Proof.
  split.
  - apply (proj1 (sanitize_text_type_error (PyList [PyStr "banana"; PyInt 3]))).
    intros [[|k [|k' ks]] Hks]; discriminate Hks.
  - apply (proj2 (sanitize_text_type_error (PyList [PyStr "banana"]))).
    by exists ["banana"].
Defined.

(** C7 as stated fails: a tuple of strings is a sequence of strings, and
    [sanitize_text "safe text" ("banana",)] raises the [TypeError]. *)
Lemma sanitize_text_rejects_tuple_of_strings :
  is_sequence_of_strings (PyTuple [PyStr "banana"]) = true ∧
  sanitize_text "safe text" (PyTuple [PyStr "banana"])
  = inl (TypeError "more_keywords must be a list of strings").
Proof. split; reflexivity. Qed.

(** C10: when the keywords contain the empty string, every text is
    blocked: the result is the empty string with a non-empty diagnostic. *)
Theorem sanitize_text_empty_keyword (ks : list string) (text : string) :
  "" ∈ ks →
  ∃ g, sanitize_text text (keyword_list ks) = inr ("", log_message text g) ∧
       log_message text g ≠ "".
Proof.
  intros Hin. rewrite sanitize_text_keyword_list.
  destruct (search _ text) as [g|] eqn:Hsearch.
  { exists g. split; [done|apply log_message_not_empty]. }
  destruct (search_None _ _ Hsearch (literal "") "").
  - apply elem_of_app. right. apply list_elem_of_fmap. eauto.
  - exists "", text. split; [done|]. constructor.
Qed.

Lemma sanitize_text_empty_keyword_witness :
  ∃ g, sanitize_text "hello world" (keyword_list ["banana"; ""])
       = inr ("", log_message "hello world" g) ∧
       log_message "hello world" g ≠ "".
Proof.
  apply (sanitize_text_empty_keyword ["banana"; ""] "hello world").
  right. left.
Defined.

(** ** The examples of the specification *)

Example sanitize_text_import :
  sanitize_text "import os; rm -rf /" (keyword_list [])
  = inr ("", log_message "import os; rm -rf /" "import").
Proof. vm_compute. reflexivity. Qed.

Example sanitize_text_hello :
  sanitize_text "hello world" (keyword_list []) = inr ("hello world", "").
Proof. vm_compute. reflexivity. Qed.

Example sanitize_text_banana_absent :
  sanitize_text "safe text" (keyword_list ["banana"]) = inr ("safe text", "").
Proof. vm_compute. reflexivity. Qed.

Example sanitize_text_banana_present :
  sanitize_text "a BaNaNa split" (keyword_list ["banana"])
  = inr ("", log_message "a BaNaNa split" "BaNaNa").
Proof. vm_compute. reflexivity. Qed.

(** A keyword is escaped, so its dot matches a dot only. *)
Example sanitize_text_keyword_is_literal :
  escaped_keywords (keyword_list ["a.b"; "x y"]) = ["a\.b"; "x\ y"] ∧
  sanitize_text "axb" (keyword_list ["a.b"]) = inr ("axb", "") ∧
  sanitize_text "an A.B here" (keyword_list ["a.b"])
  = inr ("", log_message "an A.B here" "A.B").
Proof. split_and!; vm_compute; reflexivity. Qed.

End Sanitize.
(* ===================================================================== *)
(** * Python numbers: [int] and [float]                                  *)
(* ===================================================================== *)

Module PyNum.

Local Open Scope Z_scope.

(** A number argument: an [int] of any size, or a [float], which is an
    IEEE 754 binary64 value (the kernel's primitive [float]). *)
Inductive pynum :=
  | PyInt (n : Z)
  | PyFloat (f : float).

(** What the arithmetic of numbers raises. *)
Inductive arith_error :=
  | IntTooLarge        (* OverflowError: int too large to convert to float *)
  | DivisionTooLarge   (* OverflowError: integer division result too large for a float *)
  | ZeroDivision       (* ZeroDivisionError *)
  | NaNToInteger       (* ValueError: cannot convert float NaN to integer *)
  | InfinityToInteger. (* OverflowError: cannot convert float infinity to integer *)

(** The ValueErrors among them. *)
Definition is_value_error (e : arith_error) : bool :=
  match e with
  | NaNToInteger => true
  | _ => false
  end.

(** Sequencing of computations that can raise. *)
#[global] Instance sum_bind {E : Type} : MBind (sum E) :=
  λ A B k m, match m with inl e => inl e | inr a => k a end.

(** [n * 2 ^ e] rounded to the nearest binary64 value, ties to even. *)
Definition round_scaled (n e : Z) : spec_float := binary_normalize prec emax n e false.

(** [float(n)]: the nearest [float], or the [OverflowError]. *)
Definition float_of_int (n : Z) : arith_error + float :=
  match round_scaled n 0 with
  | S754_infinity _ => inl IntTooLarge
  | f => inr (SF2Prim f)
  end.

(** The operand of a mixed operation as a [float]. *)
Definition as_float (v : pynum) : arith_error + float :=
  match v with
  | PyInt n => float_of_int n
  | PyFloat f => inr f
  end.

(** A binary operation on the two operands as floats. *)
Definition float_op (op : float → float → float) (a b : pynum)
    : arith_error + pynum :=
  match as_float a with
  | inl e => inl e
  | inr x =>
      match as_float b with
      | inl e => inl e
      | inr y => inr (PyFloat (op x y))
      end
  end.

(** [a + b], [a - b], [a * b]: exact on two ints, else in binary64. *)
Definition py_add (a b : pynum) : arith_error + pynum :=
  match a, b with
  | PyInt m, PyInt n => inr (PyInt (m + n))
  | _, _ => float_op PrimFloat.add a b
  end.

Definition py_sub (a b : pynum) : arith_error + pynum :=
  match a, b with
  | PyInt m, PyInt n => inr (PyInt (m - n))
  | _, _ => float_op PrimFloat.sub a b
  end.

Definition py_mul (a b : pynum) : arith_error + pynum :=
  match a, b with
  | PyInt m, PyInt n => inr (PyInt (m * n))
  | _, _ => float_op PrimFloat.mul a b
  end.

(** An int as the exact (unrounded) dyadic number it is. *)
Definition exact_int (n : Z) : spec_float :=
  match n with
  | Z0 => S754_zero false
  | Zpos p => S754_finite false p 0
  | Zneg p => S754_finite true p 0
  end.

Definition is_zero (f : float) : bool :=
  match Prim2SF f with
  | S754_zero _ => true
  | _ => false
  end.

(** [a / b], true division: the quotient of two ints is rounded once. *)
Definition py_truediv (a b : pynum) : arith_error + pynum :=
  match a, b with
  | PyInt m, PyInt n =>
      if n =? 0 then inl ZeroDivision
      else
        match SFdiv prec emax (exact_int m) (exact_int n) with
        | S754_infinity _ => inl DivisionTooLarge
        | q => inr (PyFloat (SF2Prim q))
        end
  | _, _ =>
      match as_float a with
      | inl e => inl e
      | inr x =>
          match as_float b with
          | inl e => inl e
          | inr y =>
              if is_zero y then inl ZeroDivision
              else inr (PyFloat (x / y)%float)
          end
      end
  end.

(** [int(v)]: an int is itself; a float is truncated towards zero. *)
Definition py_int (v : pynum) : arith_error + Z :=
  match v with
  | PyInt n => inr n
  | PyFloat f =>
      match Prim2SF f with
      | S754_nan => inl NaNToInteger
      | S754_infinity _ => inl InfinityToInteger
      | S754_zero _ => inr 0
      | S754_finite s m e =>
          let magnitude :=
            if 0 <=? e then Z.pos m * 2 ^ e else Z.pos m / 2 ^ (- e) in
          inr (if s then - magnitude else magnitude)
      end
  end.

(** The exact order of an int and a float ([None]: NaN, unordered). *)
Definition compare_int_float (n : Z) (f : float) : option comparison :=
  match Prim2SF f with
  | S754_nan => None
  | S754_infinity s => Some (if s then Gt else Lt)
  | S754_zero _ => Some (n ?= 0)
  | S754_finite s m e =>
      let m := if s then Z.neg m else Z.pos m in
      Some (if 0 <=? e then n ?= m * 2 ^ e else n * 2 ^ (- e) ?= m)
  end.

(** The order of two numbers, exact also between an int and a float. *)
Definition py_compare (a b : pynum) : option comparison :=
  match a, b with
  | PyInt m, PyInt n => Some (m ?= n)
  | PyFloat x, PyFloat y => SFcompare (Prim2SF x) (Prim2SF y)
  | PyInt m, PyFloat y => compare_int_float m y
  | PyFloat x, PyInt n => CompOpp <$> compare_int_float n x
  end.

(** [a < b] and [a > b] *)
Definition py_lt (a b : pynum) : bool :=
  match py_compare a b with
  | Some Lt => true
  | _ => false
  end.

Definition py_gt (a b : pynum) : bool :=
  match py_compare a b with
  | Some Gt => true
  | _ => false
  end.

(** [a == b] *)
Definition py_eq (a b : pynum) : bool :=
  match py_compare a b with
  | Some Eq => true
  | _ => false
  end.

(** [math.isnan(v)] *)
Definition is_nan (v : pynum) : bool :=
  match v with
  | PyInt _ => false
  | PyFloat f =>
      match Prim2SF f with
      | S754_nan => true
      | _ => false
      end
  end.

(** The rational number a finite float stands for. *)
Definition float_value (f : float) : option Q :=
  match Prim2SF f with
  | S754_zero _ => Some 0%Q
  | S754_finite s m e =>
      let v := if (0 <=? e)%Z then inject_Z (Z.pos m * 2 ^ e)
               else (Z.pos m # 2 ^ Z.to_pos (- e))%Q in
      Some (if s then (- v)%Q else v)
  | S754_infinity _ | S754_nan => None
  end.

(** ** The order is antisymmetric *)

Lemma SFcompare_antisym x y : SFcompare y x = CompOpp <$> SFcompare x y.
Proof.
  destruct x as [sx|sx| |sx mx ex], y as [sy|sy| |sy my ey]; try done;
    try (by destruct sx); try (by destruct sy); try (by destruct sx, sy).
  pose proof (Pos.compare_cont_antisym mx my Eq) as Hm. simpl in Hm.
  destruct sx, sy; try done; unfold SFcompare;
    cbn [fmap option_fmap option_map]; f_equal;
    rewrite (Z.compare_antisym ex ey); destruct (ex ?= ey); simpl; try done;
    rewrite <- Hm; by destruct (Pos.compare_cont _ _ _).
Qed.

Lemma py_compare_antisym a b : py_compare b a = CompOpp <$> py_compare a b.
Proof.
  destruct a as [m|x], b as [n|y]; simpl.
  - by rewrite (Z.compare_antisym m n).
  - done.
  - destruct (compare_int_float n x) as [c|]; [|done]. simpl. by destruct c.
  - apply SFcompare_antisym.
Qed.

Lemma py_lt_asym a b : py_lt a b = true → py_lt b a = false.
Proof.
  unfold py_lt. rewrite (py_compare_antisym a b).
  by destruct (py_compare a b) as [[]|].
Qed.

Lemma py_gt_lt a b : py_gt a b = py_lt b a.
Proof.
  unfold py_gt, py_lt. rewrite (py_compare_antisym a b).
  by destruct (py_compare a b) as [[]|].
Qed.

(** ** Numbers that compare equal *)

(** Two floats that compare equal are the same float, or two zeros. *)
Lemma SFcompare_Eq x y :
  SFcompare x y = Some Eq →
  x = y ∨ (∃ sx sy, x = S754_zero sx ∧ y = S754_zero sy).
Proof.
  destruct x as [sx|sx| |sx mx ex], y as [sy|sy| |sy my ey]; unfold SFcompare;
    try done; try (by destruct sx); try (by destruct sy).
  - intros _. right. eauto.
  - destruct sx, sy; try done; by left.
  - destruct sx, sy; try done; intros [= Hc];
      destruct (Z.compare_spec ex ey) as [->| |]; try done; left; f_equal;
      apply Pos.compare_eq;
      change (Pos.compare_cont Eq mx my) with (mx ?= my)%positive in Hc;
      by destruct (mx ?= my)%positive.
Qed.

(** ** An int that a float represents is converted without rounding *)

Lemma iter_xO_value m k : Z.pos (Pos.iter xO m k) = Z.pos m * 2 ^ Z.pos k.
Proof.
  induction k as [|k IH] using Pos.peano_ind.
  - simpl. lia.
  - rewrite Pos.iter_succ, Pos2Z.inj_succ, Z.pow_succ_r by lia.
    rewrite Pos2Z.inj_xO, IH. lia.
Qed.

Lemma iter_xO_digits m k :
  digits2_pos (Pos.iter xO m k) = (digits2_pos m + k)%positive.
Proof.
  induction k as [|k IH] using Pos.peano_ind.
  - simpl. lia.
  - rewrite Pos.iter_succ. simpl. rewrite IH. lia.
Qed.

Lemma iter_pos_iter {A} (f : A → A) n :
  ∀ x, SpecFloat.iter_pos f n x = Pos.iter f x n.
Proof.
  induction n as [n IH|n IH|]; intros x; simpl; [|by rewrite !IH|done].
  by rewrite !IH, !Pos.iter_swap.
Qed.

(** Shifting out the zeros that were shifted in loses nothing. *)
Lemma shr_exact m k :
  SpecFloat.iter_pos shr_1 k
    (Build_shr_record (Z.pos (Pos.iter xO m k)) false false)
  = Build_shr_record (Z.pos m) false false.
Proof.
  rewrite iter_pos_iter.
  induction k as [|k IH] using Pos.peano_ind; [done|].
  rewrite (Pos.iter_succ k _ xO), (Pos.iter_succ k _ shr_1), <- Pos.iter_swap.
  simpl. apply IH.
Qed.

(** A mantissa already in canonical form is not rounded. *)
Lemma binary_round_aux_canonical s m e :
  bounded prec emax m e = true →
  binary_round_aux prec emax s (Z.pos m) e loc_Exact = S754_finite s m e.
Proof.
  intros [Hcan%Z.eqb_eq He]%andb_true_iff.
  unfold canonical_mantissa in Hcan.
  unfold binary_round_aux, shr_fexp. cbn [Zdigits2 shr_record_of_loc].
  rewrite Hcan, Z.sub_diag.
  cbn [shr shr_m loc_of_shr_record round_nearest_even Zdigits2 shr_record_of_loc].
  rewrite Hcan, Z.sub_diag. cbn [shr shr_m]. by rewrite He.
Qed.

Lemma binary_round_exact s p m e :
  bounded prec emax m e = true →
  (if 0 <=? e then Z.pos p = Z.pos m * 2 ^ e
   else Z.pos p * 2 ^ (- e) = Z.pos m) →
  binary_round prec emax s p 0 = S754_finite s m e.
Proof.
  intros Hb Hval.
  pose proof Hb as [Hcan%Z.eqb_eq He]%andb_true_iff.
  unfold canonical_mantissa in Hcan. unfold binary_round.
  destruct e as [|k|k]; cbn [Z.leb Z.compare Z.opp] in Hval.
  - assert (p = m) as -> by (change (2 ^ 0) with 1 in Hval; lia).
    rewrite Hcan. change (shl_align m 0 0) with (m, 0).
    by apply binary_round_aux_canonical.
  - rewrite <- iter_xO_value in Hval. injection Hval as ->.
    rewrite iter_xO_digits, Z.add_0_r, Pos2Z.inj_add, Hcan.
    change (shl_align (Pos.iter xO m k) 0 (Z.pos k)) with (Pos.iter xO m k, 0).
    unfold binary_round_aux, shr_fexp. cbn [Zdigits2 shr_record_of_loc].
    rewrite iter_xO_digits, Z.add_0_r, Pos2Z.inj_add, Hcan, Z.sub_0_r.
    cbn [shr]. rewrite shr_exact.
    cbn [shr_m loc_of_shr_record round_nearest_even Zdigits2 shr_record_of_loc].
    rewrite Z.add_0_l, Hcan, Z.sub_diag. cbn [shr shr_m]. by rewrite He.
  - change (- Z.neg k) with (Z.pos k) in Hval.
    rewrite <- iter_xO_value in Hval. injection Hval as <-.
    rewrite iter_xO_digits, Pos2Z.inj_add in Hcan.
    replace (Z.pos (digits2_pos p) + Z.pos k + Z.neg k)
      with (Z.pos (digits2_pos p)) in Hcan by lia.
    rewrite Z.add_0_r, Hcan.
    change (shl_align p 0 (Z.neg k)) with (Pos.iter xO p k, Z.neg k).
    by apply binary_round_aux_canonical.
Qed.

(** An int other than [0] that compares equal to a float converts to that
    very float. *)
Lemma float_of_int_exact n f :
  n ≠ 0 → compare_int_float n f = Some Eq → float_of_int n = inr f.
Proof.
  intros Hn. unfold compare_int_float, float_of_int, round_scaled.
  pose proof (Prim2SF_valid f) as Hvalid.
  destruct (Prim2SF f) as [s|s| |s m e] eqn:Hf; try done.
  { intros [= ?%Z.compare_eq]. done. }
  { by destruct s. }
  simpl in Hvalid. intros [= Hval].
  assert (binary_normalize prec emax n 0 false = S754_finite s m e) as ->.
  { destruct (0 <=? e) eqn:He; apply Z.compare_eq in Hval.
    - destruct s, n as [|p|p]; try done; try lia; simpl;
        apply binary_round_exact; try done; rewrite He; lia.
    - destruct s, n as [|p|p]; try done; try lia; simpl;
        apply binary_round_exact; try done; rewrite He; lia. }
  by rewrite <- Hf, SF2Prim_Prim2SF.
Qed.

(** ** NaN is the only number that is not ordered *)

Lemma py_compare_None a b :
  py_compare a b = None → is_nan a = true ∨ is_nan b = true.
Proof.
  destruct a as [m|x], b as [n|y]; simpl; unfold compare_int_float.
  - done.
  - destruct (Prim2SF y); try done. by right.
  - destruct (Prim2SF x); try done. by left.
  - destruct (Prim2SF x) as [sx|sx| |sx mx ex]; [| |by left|];
      (destruct (Prim2SF y) as [sy|sy| |sy my ey]; [| |by right|]); done.
Qed.

End PyNum.
(* ===================================================================== *)
(** * Parsing: [normalize_number]                                        *)
(* ===================================================================== *)

Module Numbers.

Import Text PyNum.

(** The argument [input : int | str]. *)
Inductive pyarg :=
  | ArgInt (n : Z)
  | ArgStr (s : string).

(** An exception: a [ValueError] (or an exception of a subclass of it)
    with its message and the exception it was raised [from], if any; or
    an exception of another class, which [except ValueError] does not
    catch. *)
Inductive exn :=
  | ValueError (message : string) (cause : option exn)
  | OtherError (class message : string).

Definition is_ValueError (e : exn) : bool :=
  match e with
  | ValueError _ _ => true
  | OtherError _ _ => false
  end.

(** The [ValueError] [int()] raises on too many digits. *)
Definition digit_limit_error (e : int_error) : exn :=
  match e with
  | ExceedsDigitLimit digits =>
      ValueError
        ("Exceeds the limit (4300 digits) for integer string conversion: "
         +:+ "value has " +:+ pretty digits
         +:+ " digits; use sys.set_int_max_str_digits() to increase the limit")
        None
  end.

(** The items of the pattern [r'\b\d+\b']. *)
Definition DIGIT_RUN : pattern := [Bnd; Plus ClsDigit; Bnd].

(** ** The digit runs that stand as words

    Following the specification ("embedded digit runs first rewritten as
    number words"): the text is cut into its words, the maximal runs of
    word characters, and the characters between them; a word that
    consists of digits is replaced, and the pieces are put together
    again. *)

(** The words of a text and the characters between them, in order. *)
Fixpoint tokens (s : string) : list string :=
  match s with
  | EmptyString => []
  | String c s' =>
      match tokens s' with
      | t :: ts =>
          if is_word c && word_after t then String c t :: ts
          else String c "" :: t :: ts
      | [] => [String c ""]
      end
  end.

Section Collaborators.

(** [inflect.engine().number_to_words], on the text of a digit run: the
    words, or the exception it raises. *)
Variable number_to_words : string → exn + string.

(** [w2n.word_to_num]: the number, an int or a float, or the exception it
    raises. *)
Variable word_to_num : string → exn + pynum.

(** The pieces with the digit words replaced, put together; the first
    error of [number_to_words], from left to right, ends it. *)
Fixpoint spell_tokens (ts : list string) : exn + string :=
  match ts with
  | [] => inr ""
  | t :: ts' =>
      match (if isdigit t then number_to_words t else inr t) with
      | inl e => inl e
      | inr w => prefixed w (spell_tokens ts')
      end
  end.

Definition spell_digit_words (text : string) : exn + string :=
  spell_tokens (tokens text).

(** ** The code *)

(** [input.strip().lower()] *)
Definition normal_form (input : string) : string := lower (strip input).

Definition normalize_number (input : pyarg) : exn + pynum :=
  match input with
  | ArgInt n => inr (PyInt n)
  | ArgStr s =>
      let input := lower (strip s) in
      if isdigit input then
        match int_of_digits input with
        | inl e => inl (digit_limit_error e)
        | inr n => inr (PyInt n)
        end
      else
        match re_sub DIGIT_RUN number_to_words input with
        | inl e => inl e
        | inr input =>
            match word_to_num input with
            | inr n => inr n
            | inl e =>
                if is_ValueError e
                then inl (ValueError ("Invalid number input: " +:+ input) (Some e))
                else inl e
            end
        end
  end.

(** ** Decimal reading *)

Lemma int_acc_app acc s t : int_acc acc (s +:+ t) = int_acc (int_acc acc s) t.
Proof.
  revert acc. induction s as [|c s IH]; intros acc; [done|].
  rewrite app_cons. simpl. apply IH.
Qed.

(** Appending a digit multiplies by ten and adds the digit. *)
Lemma decimal_value_snoc s c :
  decimal_value (s +:+ String c "")
  = (10 * decimal_value s + digit_value c)%Z.
Proof. unfold decimal_value. by rewrite int_acc_app. Qed.

Lemma int_acc_nonneg s : ∀ acc, (0 ≤ acc)%Z → (0 ≤ int_acc acc s)%Z.
Proof.
  induction s as [|c s IH]; intros acc Hacc; [done|].
  simpl. apply IH. unfold digit_value. lia.
Qed.

Lemma int_of_digits_short s :
  (N.of_nat (String.length s) ≤ int_max_str_digits)%N →
  int_of_digits s = inr (decimal_value s).
Proof.
  intros Hlen. unfold int_of_digits.
  by destruct (N.ltb_spec int_max_str_digits (N.of_nat (String.length s))); [lia|].
Qed.

Lemma int_of_digits_long s :
  (int_max_str_digits < N.of_nat (String.length s))%N →
  int_of_digits s = inl (ExceedsDigitLimit (N.of_nat (String.length s))).
Proof.
  intros Hlen. unfold int_of_digits.
  by destruct (N.ltb_spec int_max_str_digits (N.of_nat (String.length s))); [|lia].
Qed.

(** ** Where the pattern matches *)

Lemma is_digit_is_word c : is_digit c = true → is_word c = true.
Proof. unfold is_word. intros ->. by rewrite !orb_true_r. Qed.

Lemma digit_run_source : parse "\b\d+\b" = Some (DIGIT_RUN, []).
Proof. reflexivity. Qed.

Lemma match_digit_run_no_digit prev x s :
  is_digit x = false → match_here DIGIT_RUN prev (String x s) = None.
Proof. intros Hx. simpl. rewrite Hx. by destruct (at_boundary prev _). Qed.

Lemma match_digit_run_no_boundary prev s :
  at_boundary prev s = false → match_here DIGIT_RUN prev s = None.
Proof. intros Hb. simpl. by rewrite Hb. Qed.

(** What the pattern matches: digits, at least one, between two word
    boundaries. *)
Lemma matches_digit_run prev g rest :
  matches DIGIT_RUN prev g rest ↔
  isdigit g = true ∧ at_boundary prev (g +:+ rest) = true ∧
  word_after rest = false.
Proof.
  assert (∀ prev g,
    matches [Plus ClsDigit; Bnd] prev g rest ↔
    isdigit g = true ∧ word_after rest = false) as Hplus.
  { clear prev g. intros prev g. revert prev.
    induction g as [|x g IH]; intros prev; split.
    - inversion 1.
    - by intros [? _].
    - inversion 1 as [| | |p cls y prev' g' rest' Hx Hm|p cls y prev' g' rest' Hx Hm];
        simplify_eq/=.
      + inversion Hm as [|p prev' g' rest' Hb Hm'| | |]; simplify_eq/=.
        inversion Hm'; simplify_eq/=. rewrite app_empty_l in Hb.
        unfold at_boundary in Hb. simpl in Hb.
        rewrite (is_digit_is_word _ Hx) in Hb. rewrite Hx.
        split; [done|]. by destruct (word_after rest).
      + apply IH in Hm as [Hg Hrest]. rewrite Hx. split; [|done].
        by destruct g.
    - intros [Hg Hrest]. simpl in Hg. apply andb_true_iff in Hg as [Hx Hg].
      destruct g as [|y g].
      + apply matches_plus_one; [done|]. constructor; [|constructor].
        rewrite app_empty_l. unfold at_boundary. simpl.
        by rewrite (is_digit_is_word _ Hx), Hrest.
      + apply matches_plus_more; [done|]. apply IH. by split. }
  split.
  - inversion 1 as [|p prev' g' rest' Hb Hm| | |]; simplify_eq/=.
    apply Hplus in Hm as [? ?]. done.
  - intros (Hg & Hb & Hrest). constructor; [done|]. by apply Hplus.
Qed.

(** ** Words *)

(** The word a text starts with, and what follows it. *)
Fixpoint split_word (s : string) : string * string :=
  match s with
  | EmptyString => (EmptyString, EmptyString)
  | String c s' =>
      if is_word c then (String c (fst (split_word s')), snd (split_word s'))
      else (EmptyString, s)
  end.

Lemma split_word_spec s :
  s = fst (split_word s) +:+ snd (split_word s) ∧
  all_chars is_word (fst (split_word s)) = true ∧
  word_after (snd (split_word s)) = false.
Proof.
  induction s as [|c s (IH1 & IH2 & IH3)]; [done|].
  simpl. destruct (is_word c) eqn:Hc; cbn [fst snd all_chars word_after].
  - by rewrite app_cons, <- IH1, Hc.
  - by rewrite Hc.
Qed.

Lemma split_word_length s :
  (String.length (snd (split_word s)) ≤ String.length s)%nat.
Proof.
  induction s as [|c s IH]; [done|].
  simpl. destruct (is_word c); simpl; lia.
Qed.

(** A word followed by no word character is a token. *)
Lemma tokens_word c w rest :
  is_word c = true → all_chars is_word w = true → word_after rest = false →
  tokens (String c w +:+ rest) = String c w :: tokens rest.
Proof.
  revert c. induction w as [|d w IH]; intros c Hc Hw Hrest.
  - rewrite app_cons, app_empty_l. simpl.
    destruct rest as [|r rest]; [done|]. simpl in Hrest.
    change (tokens (String r rest)) with (tokens (String r rest)).
    destruct (tokens (String r rest)) as [|t ts] eqn:Ht; [done|].
    assert (word_after t = false) as ->; [|by rewrite andb_false_r].
    simpl in Ht. destruct (tokens rest) as [|t' ts']; [by simplify_eq/=|].
    rewrite Hrest in Ht. by simplify_eq/=.
  - simpl in Hw. apply andb_true_iff in Hw as [Hd Hw].
    rewrite app_cons. cbn [tokens]. rewrite (IH d Hd Hw Hrest).
    simpl. by rewrite Hc, Hd.
Qed.

(** A character that is no word character is a token of its own. *)
Lemma tokens_other c s :
  is_word c = false → tokens (String c s) = String c "" :: tokens s.
Proof. intros Hc. simpl. rewrite Hc. by destruct (tokens s). Qed.

Lemma tokens_word_after s :
  match tokens s with
  | t :: _ => word_after t = word_after s
  | [] => s = EmptyString
  end.
Proof.
  destruct s as [|c s]; [done|]. simpl.
  destruct (tokens s) as [|t ts]; [done|].
  by destruct (is_word c && word_after t).
Qed.

(** Two words followed by no word character, at the start of one
    text, are the same word. *)
Lemma word_unique w1 : ∀ w2 r1 r2,
  w1 +:+ r1 = w2 +:+ r2 →
  all_chars is_word w1 = true → all_chars is_word w2 = true →
  word_after r1 = false → word_after r2 = false →
  w1 = w2 ∧ r1 = r2.
Proof.
  induction w1 as [|c w1 IH]; intros w2 r1 r2 Heq H1 H2 Hr1 Hr2.
  - destruct w2 as [|d w2]; [done|]. rewrite app_empty_l in Heq. subst r1.
    simpl in H2, Hr1. by rewrite Hr1 in H2.
  - destruct w2 as [|d w2].
    + rewrite app_empty_l in Heq. subst r2. simpl in H1, Hr2.
      by rewrite Hr2 in H1.
    + rewrite !app_cons in Heq. injection Heq as -> Heq.
      simpl in H1, H2. apply andb_true_iff in H1 as [_ H1].
      apply andb_true_iff in H2 as [_ H2].
      by destruct (IH w2 r1 r2 Heq H1 H2 Hr1 Hr2) as [-> ->].
Qed.

Lemma all_digit_all_word g :
  all_chars is_digit g = true → all_chars is_word g = true.
Proof.
  induction g as [|c g IH]; [done|]. simpl.
  intros [Hc Hg]%andb_true_iff. by rewrite (is_digit_is_word _ Hc), IH.
Qed.

(** ** [re.sub], position by position *)

Lemma sub_from_skip {E} (repl : string → E + string) g : ∀ prev rest,
  sub_from DIGIT_RUN repl (String.length g) prev (g +:+ rest)
  = sub_from DIGIT_RUN repl 0 (last_char prev g) rest.
Proof.
  induction g as [|c g IH]; intros prev rest; [done|].
  rewrite app_cons. simpl. apply IH.
Qed.

Lemma last_char_word prev w :
  word_before prev = true → all_chars is_word w = true →
  word_before (last_char prev w) = true.
Proof.
  revert prev. induction w as [|c w IH]; intros prev Hprev Hw; [done|].
  simpl in *. apply andb_true_iff in Hw as [Hc Hw]. by apply IH.
Qed.

(** Inside a word nothing is replaced. *)
Lemma sub_from_in_word {E} (repl : string → E + string) w : ∀ prev rest,
  word_before prev = true → all_chars is_word w = true →
  sub_from DIGIT_RUN repl 0 prev (w +:+ rest)
  = prefixed w (sub_from DIGIT_RUN repl 0 (last_char prev w) rest).
Proof.
  induction w as [|c w IH]; intros prev rest Hprev Hw.
  { rewrite app_empty_l. simpl. by destruct (sub_from _ _ _ _ _). }
  simpl in Hw. apply andb_true_iff in Hw as [Hc Hw].
  rewrite app_cons. cbn [sub_from].
  rewrite match_digit_run_no_boundary
    by (unfold at_boundary; simpl; by rewrite Hprev, Hc).
  rewrite IH by done. cbn [last_char].
  by destruct (sub_from _ _ _ _ _).
Qed.

(** At the start of a word: the word is replaced when it consists of
    digits, and left as it is otherwise. *)
Lemma match_digit_run_word prev c w rest :
  word_before prev = false →
  is_word c = true → all_chars is_word w = true → word_after rest = false →
  match_here DIGIT_RUN prev (String c w +:+ rest)
  = if isdigit (String c w) then Some (String c w) else None.
Proof.
  intros Hprev Hc Hw Hrest.
  assert (∀ g, match_here DIGIT_RUN prev (String c w +:+ rest) = Some g →
               g = String c w ∧ isdigit g = true) as Hsound.
  { intros g (rest' & Heq & Hm)%match_here_sound.
    apply matches_digit_run in Hm as (Hg & _ & Hrest').
    assert (all_chars is_digit g = true) as Hdigits by (by destruct g).
    destruct (word_unique g (String c w) rest' rest) as [-> _];
      [done|by apply all_digit_all_word|by simpl; rewrite Hc|done..]. }
  destruct (isdigit (String c w)) eqn:Hd.
  - destruct (match_here_complete DIGIT_RUN prev (String c w) rest) as [g Hg].
    { apply matches_digit_run. split_and!; [done| |done].
      rewrite app_cons. unfold at_boundary. simpl. by rewrite Hprev, Hc. }
    rewrite Hg. by destruct (Hsound g Hg) as [-> _].
  - destruct (match_here _ _ _) as [g|] eqn:Hg; [|done].
    destruct (Hsound g eq_refl) as [-> Hd']. congruence.
Qed.

(** What [re.sub] returns from a position on, by whether the character
    before it is a word character. *)
Definition spelled_from (in_word : bool) (s : string) : exn + string :=
  match tokens s with
  | t :: ts =>
      if in_word && word_after t then prefixed t (spell_tokens ts)
      else spell_tokens (t :: ts)
  | [] => inr ""
  end.

Lemma prefixed_app {E} w1 w2 (m : E + string) :
  prefixed w1 (prefixed w2 m) = prefixed (w1 +:+ w2) m.
Proof. destruct m; [done|]. simpl. by rewrite app_assoc_s. Qed.

Lemma spelled_from_no_word in_word s :
  word_after s = false → spelled_from in_word s = spell_tokens (tokens s).
Proof.
  intros Hs. unfold spelled_from. pose proof (tokens_word_after s) as Ht.
  destruct (tokens s) as [|t ts]; [done|].
  by rewrite Ht, Hs, andb_false_r.
Qed.

Lemma sub_from_spelled n : ∀ s prev,
  (String.length s ≤ n)%nat →
  sub_from DIGIT_RUN number_to_words 0 prev s
  = spelled_from (word_before prev) s.
Proof.
  induction n as [|n IH]; intros s prev Hlen.
  { by destruct s; [|simpl in Hlen; lia]. }
  destruct s as [|c s]; [done|]. simpl in Hlen.
  destruct (is_word c) eqn:Hc.
  - destruct (split_word_spec s) as (Hs & Hw & Hrest).
    pose proof (split_word_length s) as Hshort.
    set (w := fst (split_word s)) in *. set (rest := snd (split_word s)) in *.
    assert (String c s = String c w +:+ rest) as -> by (by rewrite app_cons, <- Hs).
    assert (word_before (last_char (Some c) w) = true) as Hlast
      by (by apply last_char_word).
    assert (sub_from DIGIT_RUN number_to_words 0 (last_char (Some c) w) rest
            = spell_tokens (tokens rest)) as Hafter.
    { rewrite IH by lia. by apply spelled_from_no_word. }
    unfold spelled_from. rewrite (tokens_word c w rest Hc Hw Hrest).
    cbn [word_after]. rewrite Hc, andb_true_r.
    destruct (word_before prev) eqn:Hprev.
    + rewrite (sub_from_in_word _ (String c w)) by (simpl; by rewrite ?Hc).
      cbn [last_char]. by rewrite Hafter.
    + rewrite app_cons. cbn [sub_from]. rewrite <- app_cons.
      rewrite (match_digit_run_word prev c w rest Hprev Hc Hw Hrest).
      cbn [spell_tokens]. destruct (isdigit (String c w)) eqn:Hd.
      * destruct (number_to_words (String c w)) as [e|words]; [done|].
        by rewrite sub_from_skip, Hafter.
      * rewrite (sub_from_in_word _ w) by done.
        rewrite Hafter, prefixed_app. done.
  - cbn [sub_from].
    rewrite match_digit_run_no_digit
      by (destruct (is_digit c) eqn:Hd; [by rewrite (is_digit_is_word _ Hd) in Hc|done]).
    rewrite IH by lia. unfold spelled_from at 2.
    rewrite (tokens_other c s Hc). cbn [word_after]. rewrite Hc, andb_false_r.
    cbn [spell_tokens]. simpl isdigit.
    assert (is_digit c = false) as ->
      by (destruct (is_digit c) eqn:Hd; [by rewrite (is_digit_is_word _ Hd) in Hc|done]).
    simpl. unfold spelled_from.
    pose proof (tokens_word_after s) as Ht.
    destruct (tokens s) as [|t ts]; [done|].
    cbn [word_before]. by rewrite Hc.
Qed.

(** [re.sub(r'\b\d+\b', ...)] rewrites exactly the digit runs that stand
    as words. *)
Lemma re_sub_digit_words text :
  re_sub DIGIT_RUN number_to_words text = spell_digit_words text.
Proof.
  unfold re_sub. rewrite (sub_from_spelled (String.length text)) by done.
  unfold spelled_from, spell_digit_words. simpl.
  by destruct (tokens text).
Qed.

(** A text without digits is not rewritten. *)
Lemma re_sub_no_digit s : ∀ prev,
  all_chars (λ c, negb (is_digit c)) s = true →
  sub_from DIGIT_RUN number_to_words 0 prev s = inr s.
Proof.
  induction s as [|x s IH]; intros prev Hs; [done|].
  simpl in Hs. apply andb_true_iff in Hs as [Hx%negb_true_iff Hs].
  cbn [sub_from]. rewrite (match_digit_run_no_digit _ _ _ Hx).
  by rewrite IH.
Qed.

(** ** The contract *)

Lemma normalize_number_digits s :
  isdigit (normal_form s) = true →
  normalize_number (ArgStr s) =
    match int_of_digits (normal_form s) with
    | inl e => inl (digit_limit_error e)
    | inr n => inr (PyInt n)
    end.
Proof. unfold normalize_number, normal_form. by intros ->. Qed.

Lemma normalize_number_words s :
  isdigit (normal_form s) = false →
  normalize_number (ArgStr s) =
    match spell_digit_words (normal_form s) with
    | inl e => inl e
    | inr text =>
        match word_to_num text with
        | inr n => inr n
        | inl e =>
            if is_ValueError e
            then inl (ValueError ("Invalid number input: " +:+ text) (Some e))
            else inl e
        end
    end.
Proof.
  unfold normalize_number, normal_form. intros ->.
  by rewrite re_sub_digit_words.
Qed.


End Collaborators.

(** ** Examples with stand-ins for the collaborators *)

(** A stand-in conversion that knows three texts: on them it answers as
    the library does, a float for a wording with "point". *)
Definition toy_word_to_num (s : string) : exn + pynum :=
  if decide (s = "forty-two") then inr (PyInt 42)
  else if decide (s = "twelve apples") then inr (PyInt 12)
  else if decide (s = "two point five") then inr (PyFloat 2.5)
  else inl (ValueError "No valid number words found!" None).

(** A stand-in spelling: as the library, it refuses a number of more
    than 36 digits with an error that is no [ValueError]. *)
Definition toy_number_to_words (s : string) : exn + string :=
  if (36 <? String.length s)%nat
  then inl (OtherError "NumOutOfRangeError" "number out of range")
  else if decide (s = "12") then inr "twelve" else inr "zero".

Fixpoint repeated (c : ascii) (n : nat) : string :=
  match n with
  | O => EmptyString
  | S n' => String c (repeated c n')
  end.


(** C3 as stated fails: a string of 4301 digits is purely digits, and the
    call raises the bare [ValueError] of [int()], which carries no cause;
    a wording with "point" gives a float, not an integer; and an error of
    the spelling of a digit run is passed on as it is, not as the
    invalid-input error. *)
Lemma normalize_number_digit_limit_float_and_foreign_error :
  isdigit (repeated "1" 4301) = true ∧
  normalize_number toy_number_to_words toy_word_to_num
    (ArgStr (repeated "1" 4301))
  = inl (ValueError
           ("Exceeds the limit (4300 digits) for integer string conversion: "
            +:+ "value has 4301 digits; "
            +:+ "use sys.set_int_max_str_digits() to increase the limit")
           None) ∧
  normalize_number toy_number_to_words toy_word_to_num (ArgStr "two point five")
  = inr (PyFloat 2.5) ∧
  normalize_number toy_number_to_words toy_word_to_num
    (ArgStr ("about " +:+ repeated "9" 37 +:+ " apples"))
  = inl (OtherError "NumOutOfRangeError" "number out of range").
Proof. split_and!; vm_compute; reflexivity. Qed.

Example normalize_number_forty_two :
  normalize_number toy_number_to_words toy_word_to_num (ArgStr "  Forty-Two ")
  = inr (PyInt 42).
Proof. vm_compute. reflexivity. Qed.

Example normalize_number_spells_digits :
  normalize_number toy_number_to_words toy_word_to_num (ArgStr "12 apples")
  = inr (PyInt 12).
Proof. vm_compute. reflexivity. Qed.

Example normalize_number_not_a_number :
  normalize_number toy_number_to_words toy_word_to_num (ArgStr "not a number")
  = inl (ValueError "Invalid number input: not a number"
           (Some (ValueError "No valid number words found!" None))).
Proof. vm_compute. reflexivity. Qed.

(** The digit runs that stand as words are replaced, the others not. *)
Example spelled_out_digit_runs :
  re_sub DIGIT_RUN (λ g, inr ("<" +:+ g +:+ ">") : exn + string)
    "12 apples and 3 pears a4 5b 66 7_8 9"
  = inr "<12> apples and <3> pears a4 5b <66> 7_8 <9>" ∧
  tokens "12 apples a4 66"
  = ["12"; " "; "apples"; " "; "a4"; " "; "66"].
Proof. split; vm_compute; reflexivity. Qed.

End Numbers.
(* ===================================================================== *)
(** * Randomization and timing: [random_within_boundary_box],
      [timed_delay]                                                      *)
(* ===================================================================== *)

Module Randomness.

Import Text PyNum.

Local Open Scope Z_scope.

(** [max(0, x)]: [x] when [x > 0], else the int [0] (for NaN too). *)
Definition max0 (x : pynum) : pynum := if py_gt x (PyInt 0) then x else PyInt 0.

(** [sorted([a, b])]: the two are exchanged when [b < a]. *)
Definition sorted2 (a b : pynum) : pynum * pynum :=
  if py_lt b a then (b, a) else (a, b).

(** What [time.sleep] raises when it refuses a duration. *)
Inductive sleep_error :=
  | SleepValueError      (* ValueError: negative, or NaN *)
  | SleepOverflowError.  (* OverflowError: too large for the clock *)

(** The exceptions of this part, by what raises them. *)
Inductive exn :=
  | InvalidBoundaryBox (x y h w : pynum)
      (* ValueError("Invalid boundary box: (x, y, h, w). ...") *)
  | EmptyRange (a b : Z)           (* ValueError of [random.randint] *)
  | Arithmetic (e : arith_error)   (* raised by [+], [-], [*], [/], [int] *)
  | SleepRefused (e : sleep_error).

(** What [timed_delay] does to the outside: the calls of [print] and of
    [time.sleep], in order. *)
Inductive effect :=
  | Print (line : string)
  | Sleep (seconds : pynum).

(** [print_from(name, message)] prints ["[name] message"]. *)
Definition print_from (name message : string) : effect :=
  Print ("[" +:+ name +:+ "] " +:+ message).

(** The durations [time.sleep] was asked for in a run. *)
Definition slept (run : (exn + unit) * list effect) : list pynum :=
  omap (λ e, match e with Sleep t => Some t | Print _ => None end) (snd run).

(** The derived bounds [(x_min, x_max, y_min, y_max)], in the order the
    code computes them. *)
Definition box_bounds (x y h w : pynum) (centered : bool)
    : arith_error + Z * Z * Z * Z :=
  if centered then
    x_min ← (half ← py_truediv w (PyInt 2); v ← py_sub x half; py_int v);
    x_max ← (half ← py_truediv w (PyInt 2); v ← py_add x half; py_int v);
    y_min ← (half ← py_truediv h (PyInt 2); v ← py_sub y half; py_int v);
    y_max ← (half ← py_truediv h (PyInt 2); v ← py_add y half; py_int v);
    inr (x_min, x_max, y_min, y_max)
  else
    x_min ← py_int x;
    x_max ← (v ← py_add x w; py_int v);
    y_min ← py_int y;
    y_max ← (v ← py_add y h; py_int v);
    inr (x_min, x_max, y_min, y_max).

Section Generator.

(** The state of the generator and its source of raw integers. *)
Variable G : Type.
Variable next : G → Z * G.

(** The rendering [f"{x:.2f}"]. *)
Variable format_2f : pynum → string.

(** [time.sleep(t)]: the error it raises, if it refuses [t]. *)
Variable time_sleep : pynum → option sleep_error.

(** [random.random()]: 53 random bits [k] as the float [k / 2^53], a
    number in [0, 1). *)
Definition random (g : G) : float * G :=
  let '(k, g') := next g in
  (SF2Prim (round_scaled (k mod 2 ^ 53) (-53)), g').

(** [random.uniform(a, b)] is [a + (b - a) * self.random()]. *)
Definition uniform (a b : pynum) (g : G) : (arith_error + pynum) * G :=
  match py_sub b a with
  | inl e => (inl e, g)
  | inr width =>
      let '(u, g') := random g in
      (scaled ← py_mul width (PyFloat u); py_add a scaled, g')
  end.

(** [random.randint(a, b)]: [a] plus a number below the width
    [b + 1 - a], and a [ValueError] when the range is empty. *)
Definition randint (a b : Z) (g : G) : (exn + Z) * G :=
  let width := b + 1 - a in
  if 0 <? width then
    let '(r, g') := next g in
    (inr (a + r mod width), g')
  else (inl (EmptyRange a b), g).

Definition random_within_boundary_box (x y h w : pynum) (centered : bool) (g : G)
    : (exn + Z * Z) * G :=
  match box_bounds x y h w centered with
  | inl e => (inl (Arithmetic e), g)
  | inr (x_min, x_max, y_min, y_max) =>
      if (x_min >? x_max) || (y_min >? y_max) then
        (inl (InvalidBoundaryBox x y h w), g)
      else
        match randint x_min x_max g with
        | (inl e, g1) => (inl e, g1)
        | (inr px, g1) =>
            match randint y_min y_max g1 with
            | (inl e, g2) => (inl e, g2)
            | (inr py, g2) => (inr (px, py), g2)
            end
        end
  end.

(** The run of [timed_delay]: what it raises if anything, the calls it
    makes, and the generator it leaves. *)
Definition timed_delay (wait_time variant_time_x variant_time_y : pynum) (g : G)
    : (exn + unit) * list effect * G :=
  let wait_time := max0 wait_time in
  let '(variant_time_x, variant_time_y) :=
    sorted2 (max0 variant_time_x) (max0 variant_time_y) in
  let '(extra, g') := uniform variant_time_x variant_time_y g in
  match extra ≫= py_add wait_time with
  | inl e => (inl (Arithmetic e), [], g')
  | inr total_delay =>
      (match time_sleep total_delay with
       | Some e => inl (SleepRefused e)
       | None => inr ()
       end,
       [ print_from "OperaPowerTools"
           ("Waiting for " +:+ format_2f total_delay +:+ " seconds...");
         Sleep total_delay ],
       g')
  end.

(** ** The generator stays in range *)

Lemma randint_between a b g :
  a <= b →
  ∃ r, fst (randint a b g) = inr r ∧ a <= r <= b.
Proof.
  intros Hab. unfold randint.
  destruct (Z.ltb_spec 0 (b + 1 - a)) as [Hw|Hw]; [|lia].
  destruct (next g) as [r g']. cbn [fst].
  eexists. split; [done|].
  pose proof (Z.mod_pos_bound r (b + 1 - a) Hw). lia.
Qed.

(** ** random_within_boundary_box *)

(** The outcome of a call whose four bounds could be computed. *)
Lemma box_outcome x y h w centered g x_min x_max y_min y_max :
  box_bounds x y h w centered = inr (x_min, x_max, y_min, y_max) →
  ((x_min > x_max ∨ y_min > y_max) ∧
   fst (random_within_boundary_box x y h w centered g)
   = inl (InvalidBoundaryBox x y h w)) ∨
  (x_min <= x_max ∧ y_min <= y_max ∧
   ∃ px py,
     fst (random_within_boundary_box x y h w centered g) = inr (px, py) ∧
     x_min <= px <= x_max ∧ y_min <= py <= y_max).
Proof.
  intros Hb. unfold random_within_boundary_box. rewrite Hb.
  destruct (Z.gtb_spec x_min x_max) as [?|Hx]; [left; split; [lia|done]|].
  destruct (Z.gtb_spec y_min y_max) as [?|Hy]; [left; split; [lia|done]|].
  right. cbn [orb]. split_and!; [done..|].
  destruct (randint_between x_min x_max g Hx) as (px & Hpx & Hpx').
  destruct (randint x_min x_max g) as [rx g1]. cbn [fst] in Hpx. subst rx.
  destruct (randint_between y_min y_max g1 Hy) as (py & Hpy & Hpy').
  destruct (randint y_min y_max g1) as [ry g2]. cbn [fst] in Hpy. subst ry.
  by exists px, py.
Qed.


(** ** timed_delay *)

(** A clamped value is the int [0] or a number greater than [0]. *)
Definition clamped (v : pynum) : Prop := v = PyInt 0 ∨ py_gt v (PyInt 0) = true.

Lemma max0_clamped x : clamped (max0 x).
Proof.
  unfold max0, clamped. destruct (py_gt x (PyInt 0)) eqn:Hx; [by right|by left].
Qed.

Lemma clamped_not_nan v : clamped v → is_nan v = false.
Proof.
  intros [->|Hv]; [done|]. destruct v as [n|f]; [done|].
  unfold py_gt in Hv. simpl in *. unfold compare_int_float in Hv.
  by destruct (Prim2SF f).
Qed.

(** Two clamped numbers that compare equal give the same draw, in either
    order. *)
Lemma uniform_equal_bounds a b g :
  clamped a → clamped b → py_compare a b = Some Eq →
  uniform a b g = uniform b a g.
Proof.
  intros Ha Hb Hab. destruct a as [m|x], b as [n|y]; simpl in Hab.
  - injection Hab as ->%Z.compare_eq. done.
  - assert (m ≠ 0) as Hm.
    { intros ->. destruct Hb as [?|Hb]; [done|].
      unfold py_gt in Hb. simpl in Hb. by rewrite Hab in Hb. }
    pose proof (float_of_int_exact m y Hm Hab) as Hfloat.
    unfold uniform, py_sub, py_add, py_mul, float_op, as_float.
    rewrite Hfloat. by destruct (random g).
  - destruct (compare_int_float n x) as [c|] eqn:Hc; [|done].
    assert (c = Eq) as -> by (simpl in Hab; by destruct c).
    assert (n ≠ 0) as Hn.
    { intros ->. destruct Ha as [?|Ha]; [done|].
      unfold py_gt in Ha. simpl in Ha. by rewrite Hc in Ha. }
    pose proof (float_of_int_exact n x Hn Hc) as Hfloat.
    unfold uniform, py_sub, py_add, py_mul, float_op, as_float.
    rewrite Hfloat. by destruct (random g).
  - apply SFcompare_Eq in Hab as [Hxy|(sx & sy & Hx & Hy)].
    + by apply Prim2SF_inj in Hxy as ->.
    + destruct Ha as [?|Ha]; [done|].
      unfold py_gt in Ha. simpl in Ha. unfold compare_int_float in Ha.
      by rewrite Hx in Ha.
Qed.

(** The bounds handed to [random.uniform] give the same draw when the two
    variant arguments are exchanged. *)
Lemma uniform_sorted2 a b g :
  clamped a → clamped b →
  (let '(lo, hi) := sorted2 a b in uniform lo hi g)
  = (let '(lo, hi) := sorted2 b a in uniform lo hi g).
Proof.
  intros Ha Hb. unfold sorted2.
  destruct (py_lt b a) eqn:Hba.
  { by rewrite (py_lt_asym _ _ Hba). }
  destruct (py_lt a b) eqn:Hab; [done|].
  apply uniform_equal_bounds; [done..|].
  unfold py_lt in Hba, Hab. rewrite (py_compare_antisym a b) in Hba.
  destruct (py_compare a b) as [[]|] eqn:Hc; try done.
  apply py_compare_None in Hc.
  rewrite (clamped_not_nan a Ha), (clamped_not_nan b Hb) in Hc. by destruct Hc.
Qed.


End Generator.

(** ** Examples with a linear congruential generator *)

Definition lcg_next (g : Z) : Z * Z :=
  (g, (1103515245 * g + 12345) mod 2 ^ 31).

(** Two decimal digits. *)
Definition two_digits (n : Z) : string :=
  if n <? 10 then "0" +:+ pretty n else pretty n.

(** [f"{v:.2f}"] for a float: its value rounded to hundredths, to the
    even one on a tie.  (An int is converted to a float first; the runs
    of [timed_delay] only render floats.) *)
Definition format_2f (v : pynum) : string :=
  match as_float v with
  | inl _ => ""
  | inr f =>
      match Prim2SF f with
      | S754_nan => "nan"
      | S754_infinity s => if s then "-inf" else "inf"
      | S754_zero s => if s then "-0.00" else "0.00"
      | S754_finite s m e =>
          let hundredths :=
            if 0 <=? e then Z.pos m * 100 * 2 ^ e
            else
              let d := 2 ^ (- e) in
              let q := (Z.pos m * 100) / d in
              let r := (Z.pos m * 100) mod d in
              if (d <? 2 * r) || ((d =? 2 * r) && Z.odd q) then q + 1 else q in
          (if s then "-" else "") +:+ pretty (hundredths / 100) +:+ "."
          +:+ two_digits (hundredths mod 100)
      end
  end.

(** A stand-in for [time.sleep]: it refuses NaN and a negative duration
    with a [ValueError], and with an [OverflowError] a duration of more
    than [2^63] nanoseconds. *)
Definition time_sleep (t : pynum) : option sleep_error :=
  if is_nan t || py_lt t (PyInt 0) then Some SleepValueError
  else
    match py_mul t (PyFloat 1e9) with
    | inr ns => if py_gt ns (PyInt (2 ^ 63)) then Some SleepOverflowError else None
    | inl _ => Some SleepOverflowError
    end.


(** C4 as stated fails.  A rectangle of width and height zero is
    degenerate, and the call returns its one point; with an infinite or
    NaN coordinate the call neither returns a point nor raises its
    [ValueError]: [int()] raises an [OverflowError], or its own
    [ValueError], before the bounds are compared. *)
Lemma random_within_boundary_box_zero_size_and_not_finite :
  (∀ g, fst (random_within_boundary_box Z lcg_next
               (PyInt 0) (PyInt 0) (PyInt 0) (PyInt 0) false g) = inr (0, 0)) ∧
  (∀ g, fst (random_within_boundary_box Z lcg_next
               (PyFloat infinity) (PyInt 0) (PyInt 1) (PyInt 1) false g)
        = inl (Arithmetic InfinityToInteger)) ∧
  is_value_error InfinityToInteger = false ∧
  (∀ g, fst (random_within_boundary_box Z lcg_next
               (PyInt 0) (PyInt 0) (PyInt 1) (PyFloat nan) false g)
        = inl (Arithmetic NaNToInteger)).
Proof.
  split_and!.
  - intros g.
    destruct (box_outcome Z lcg_next (PyInt 0) (PyInt 0) (PyInt 0) (PyInt 0) false g
                0 0 0 0 eq_refl) as [[Hbad _]|(_ & _ & px & py & -> & Hpx & Hpy)];
      [lia|].
    by replace px with 0 by lia; replace py with 0 by lia.
  - intros g. reflexivity.
  - reflexivity.
  - intros g. reflexivity.
Qed.

(** C8 as stated fails.  With the int wait [2^53 + 1] and no variant
    the lower end of the interval is the int [2^53 + 1], and the duration
    is the float [2^53], below it.  With a wait of 0.1 and both bounds 0.7
    the duration is the float 0.7999999999999999, which is less than the
    sum of the numbers 0.1 and 0.7 stand for.  With the bounds infinity
    and 0 and the draw 0 the duration is NaN, which lies in no interval,
    and [time.sleep] refuses it. *)
Lemma timed_delay_rounds_and_can_be_nan :
  (∃ total,
     slept (fst (timed_delay Z lcg_next format_2f time_sleep
                   (PyInt (2 ^ 53 + 1)) (PyInt 0) (PyInt 0) 42)) = [total] ∧
     total = PyFloat 9007199254740992 ∧
     py_add (max0 (PyInt (2 ^ 53 + 1)))
       (fst (sorted2 (max0 (PyInt 0)) (max0 (PyInt 0))))
     = inr (PyInt (2 ^ 53 + 1)) ∧
     py_lt total (PyInt (2 ^ 53 + 1)) = true) ∧
  (∃ wait bound total,
     float_value 0.1 = Some wait ∧ float_value 0.7 = Some bound ∧
     float_value 0.7999999999999999 = Some total ∧
     slept (fst (timed_delay Z lcg_next format_2f time_sleep
                   (PyFloat 0.1) (PyFloat 0.7) (PyFloat 0.7) 42))
     = [PyFloat 0.7999999999999999] ∧
     (total < wait + bound)%Q) ∧
  (∃ total,
     fst (timed_delay Z lcg_next format_2f time_sleep
            (PyInt 0) (PyFloat infinity) (PyInt 0) 0)
     = (inl (SleepRefused SleepValueError),
        [Print "[OperaPowerTools] Waiting for nan seconds..."; Sleep total]) ∧
     is_nan total = true ∧
     (∀ bound, py_lt total bound = false ∧ py_gt total bound = false ∧
               py_eq total bound = false)).
Proof.
  split_and!.
  - exists (PyFloat 9007199254740992). split_and!; vm_compute; reflexivity.
  - do 3 eexists. split_and!; [vm_compute; reflexivity..|].
    vm_compute. reflexivity.
  - exists (PyFloat nan). split_and!; [vm_compute; reflexivity..|].
    intros [n|f]; unfold py_lt, py_gt, py_eq, py_compare; cbn; [done|].
    by destruct (Prim2SF f).
Qed.

Example box_from_corner :
  fst (random_within_boundary_box Z lcg_next
         (PyInt 0) (PyInt 0) (PyInt 10) (PyInt 10) false 42) = inr (9, 0).
Proof. vm_compute. reflexivity. Qed.

Example box_centered :
  box_bounds (PyInt 5) (PyInt 5) (PyInt 4) (PyInt 3) true = inr (3, 6, 3, 7) ∧
  fst (random_within_boundary_box Z lcg_next
         (PyInt 5) (PyInt 5) (PyInt 4) (PyInt 3) true 42) = inr (5, 5).
Proof. split; vm_compute; reflexivity. Qed.

(** Truncation is towards zero, and a box of width zero is accepted. *)
Example box_truncated :
  box_bounds (PyFloat (-0.5)) (PyInt 0) (PyInt 0) (PyInt 1) false
  = inr (0, 0, 0, 0) ∧
  fst (random_within_boundary_box Z lcg_next
         (PyFloat (-0.5)) (PyInt 0) (PyInt 0) (PyInt 1) false 42) = inr (0, 0).
Proof. split; vm_compute; reflexivity. Qed.

Example box_inverted :
  fst (random_within_boundary_box Z lcg_next
         (PyInt 0) (PyInt 0) (PyInt (-5)) (PyInt 10) false 42)
  = inl (InvalidBoundaryBox (PyInt 0) (PyInt 0) (PyInt (-5)) (PyInt 10)).
Proof. reflexivity. Qed.

(** Floats round: [1e16 + -1] is [1e16], so a width of -1 is accepted
    there; [(2^53 + 1) + 0.5] is [2^53], so a width of 0.5 is refused
    there; and around the int [2^60 + 100] a centered box of width 0 is
    the point [2^60]. *)
Example box_rounding :
  fst (random_within_boundary_box Z lcg_next
         (PyFloat 1e16) (PyInt 0) (PyInt 0) (PyInt (-1)) false 42)
  = inr (10 ^ 16, 0) ∧
  fst (random_within_boundary_box Z lcg_next
         (PyInt (2 ^ 53 + 1)) (PyInt 0) (PyInt 0) (PyFloat 0.5) false 42)
  = inl (InvalidBoundaryBox (PyInt (2 ^ 53 + 1)) (PyInt 0) (PyInt 0) (PyFloat 0.5)) ∧
  fst (random_within_boundary_box Z lcg_next
         (PyInt (2 ^ 60 + 100)) (PyInt 0) (PyInt 0) (PyInt 0) true 42)
  = inr (2 ^ 60, 0).
Proof. split_and!; vm_compute; reflexivity. Qed.

(** Sizes too large for a float are refused by the division. *)
Example box_too_large :
  fst (random_within_boundary_box Z lcg_next
         (PyInt 0) (PyInt 0) (PyInt 1) (PyInt (2 ^ 1025)) true 42)
  = inl (Arithmetic DivisionTooLarge).
Proof. vm_compute. reflexivity. Qed.

(** With the draw [1/2], a wait of [-1] and the bounds [2] and [1], in
    either order, give a delay of [1.5]. *)
Example delay_half_way :
  fst (timed_delay Z lcg_next format_2f time_sleep
         (PyInt (-1)) (PyInt 2) (PyInt 1) (2 ^ 52))
  = (inr (), [Print "[OperaPowerTools] Waiting for 1.50 seconds...";
              Sleep (PyFloat 1.5)]) ∧
  fst (timed_delay Z lcg_next format_2f time_sleep
         (PyInt (-1)) (PyInt 1) (PyInt 2) (2 ^ 52))
  = (inr (), [Print "[OperaPowerTools] Waiting for 1.50 seconds...";
              Sleep (PyFloat 1.5)]).
Proof. split; vm_compute; reflexivity. Qed.

(** The sum is a float sum: 0.1 + 0.2 is 0.30000000000000004, and for
    the int [2^53 + 1] the clock is asked for [2^53] seconds (and
    refuses). *)
Example delay_rounding :
  fst (timed_delay Z lcg_next format_2f time_sleep
         (PyFloat 0.1) (PyFloat 0.2) (PyFloat 0.2) 42)
  = (inr (), [Print "[OperaPowerTools] Waiting for 0.30 seconds...";
              Sleep (PyFloat 0.30000000000000004)]) ∧
  fst (timed_delay Z lcg_next format_2f time_sleep
         (PyInt (2 ^ 53 + 1)) (PyInt 0) (PyInt 0) 42)
  = (inl (SleepRefused SleepOverflowError),
     [Print "[OperaPowerTools] Waiting for 9007199254740992.00 seconds...";
      Sleep (PyFloat 9007199254740992)]).
Proof. split; vm_compute; reflexivity. Qed.

(** A duration too long for the clock is printed, then refused; an int
    too large for a float is refused before anything is printed. *)
Example delay_too_long :
  fst (timed_delay Z lcg_next format_2f time_sleep
         (PyFloat 1e10) (PyInt 0) (PyInt 0) 42)
  = (inl (SleepRefused SleepOverflowError),
     [Print "[OperaPowerTools] Waiting for 10000000000.00 seconds...";
      Sleep (PyFloat 1e10)]) ∧
  fst (timed_delay Z lcg_next format_2f time_sleep
         (PyInt (2 ^ 1024)) (PyInt 0) (PyInt 0) 42)
  = (inl (Arithmetic IntTooLarge), []).
Proof. split; vm_compute; reflexivity. Qed.

Example format_2f_examples :
  format_2f <$> [PyFloat 0.125; PyFloat 0.375; PyFloat 2.675; PyFloat 99.995;
                 PyFloat 1234.5678; PyFloat (-0.001); PyFloat 5e-324]
  = ["0.12"; "0.38"; "2.67"; "100.00"; "1234.57"; "-0.00"; "0.00"].
Proof. vm_compute. reflexivity. Qed.

End Randomness.

(* ===================================================================== *)
(** * Directory enumeration: [enumerate_directory]                       *)
(* ===================================================================== *)

Module Directory.

(** An entry [os.scandir] yields. *)
Record DirEntry := {
  name : string;
  path : string;
  is_file : bool;
  is_dir : bool;
}.

(** An item of a listing: a string (a file name, or an error message), or
    the one-key mapping [{name: contents}] of a subdirectory. *)
Inductive item :=
  | Str (s : string)
  | SubDir (name : string) (contents : list item).

Section FileSystem.

(** [os.path.exists] and [os.path.isdir]. *)
Variable exists_ : string → bool.
Variable isdir : string → bool.

(** [os.scandir]: the entries, or [None] for a [PermissionError]. *)
Variable scandir : string → option (list DirEntry).

(** [_scan_directory(directory, depth)], by recursion on the levels left:
    [depth > 0] is [depth = S d], and [d] is [depth - 1]. *)
Fixpoint scan_directory (depth : nat) (directory : string) : list item :=
  match scandir directory with
  | None => []
  | Some entries =>
      flat_map (λ entry,
        if is_file entry then [Str (name entry)]
        else if is_dir entry then
          match depth with
          | S d =>
              match scan_directory d (path entry) with
              | [] => []
              | subdir_contents => [SubDir (name entry) subdir_contents]
              end
          | O => []
          end
        else []) entries
  end.

Definition enumerate_directory (path : string) (levels : Z)
    : gmap string (list item) :=
  if negb (exists_ path) then
    {[ "error" := [Str ("Directory does not exist: " +:+ path)] ]}
  else if negb (isdir path) then
    {[ "error" := [Str ("Path is not a directory: " +:+ path)] ]}
  else
    {[ path := scan_directory (Z.to_nat levels) path ]}.

(** C5: when the path does not exist or is not a directory, the result is
    the mapping with the one key "error", whose value holds exactly one
    message, and the message ends with the path; otherwise the result is
    the listing under the path. *)
Theorem enumerate_directory_contract (path : string) (levels : Z) :
  (exists_ path && isdir path = false →
     ∃ prefix,
       enumerate_directory path levels = {[ "error" := [Str (prefix +:+ path)] ]} ∧
       dom (enumerate_directory path levels) = {[ "error" ]} ∧
       (length <$> enumerate_directory path levels !! "error") = Some 1%nat) ∧
  (exists_ path && isdir path = true →
     enumerate_directory path levels
     = {[ path := scan_directory (Z.to_nat levels) path ]}).
Proof.
  unfold enumerate_directory. split.
  - intros Hbad. destruct (exists_ path); simpl in *.
    + rewrite Hbad. simpl. exists "Path is not a directory: ".
      split_and!; [done|by rewrite dom_singleton_L|by rewrite lookup_singleton_eq].
    + exists "Directory does not exist: ".
      split_and!; [done|by rewrite dom_singleton_L|by rewrite lookup_singleton_eq].
  - intros [-> ->]%andb_true_iff. done.
Qed.

End FileSystem.

(** ** Examples on an empty file system and on a small tree *)

Example enumerate_directory_missing :
  enumerate_directory (λ _, false) (λ _, false) (λ _, None)
    "/path/does/not/exist" 1
  = {[ "error" := [Str "Directory does not exist: /path/does/not/exist"] ]}.
Proof. reflexivity. Qed.

Lemma enumerate_directory_contract_witness :
  ∃ prefix,
    enumerate_directory (λ _, false) (λ _, false) (λ _, None)
      "/path/does/not/exist" 1
    = {[ "error" := [Str (prefix +:+ "/path/does/not/exist")] ]} ∧
    dom (enumerate_directory (λ _, false) (λ _, false) (λ _, None)
           "/path/does/not/exist" 1) = {[ "error" ]} ∧
    (length <$> enumerate_directory (λ _, false) (λ _, false) (λ _, None)
                  "/path/does/not/exist" 1 !! "error") = Some 1%nat.
Proof.
  apply (proj1 (enumerate_directory_contract (λ _, false) (λ _, false)
                  (λ _, None) "/path/does/not/exist" 1)).
  reflexivity.
Defined.

Definition toy_scandir (directory : string) : option (list DirEntry) :=
  if decide (directory = "/srv") then
    Some [ {| name := "a.txt"; path := "/srv/a.txt"; is_file := true; is_dir := false |};
           {| name := "logs"; path := "/srv/logs"; is_file := false; is_dir := true |};
           {| name := "empty"; path := "/srv/empty"; is_file := false; is_dir := true |} ]
  else if decide (directory = "/srv/logs") then
    Some [ {| name := "x.log"; path := "/srv/logs/x.log"; is_file := true; is_dir := false |} ]
  else if decide (directory = "/srv/empty") then Some []
  else None.

Example enumerate_directory_tree :
  enumerate_directory (λ _, true) (λ p, bool_decide (p = "/srv")) toy_scandir "/srv" 1
  = {[ "/srv" := [Str "a.txt"; SubDir "logs" [Str "x.log"]] ]}.
Proof. reflexivity. Qed.

End Directory.

(* ===================================================================== *)
(** * Phonetic matching: [find_best_phonetic_match]                      *)
(* ===================================================================== *)

Module Matching.

Local Open Scope Q_scope.

(** A [dict] from strings to strings, in insertion order. *)
Definition dict := list (string * string).

(** [d[k] = v]: the value of an existing key is replaced in place, a new
    key goes to the end. *)
Fixpoint dict_set (k v : string) (d : dict) : dict :=
  match d with
  | [] => [(k, v)]
  | (k', v') :: d' =>
      if decide (k = k') then (k, v) :: d' else (k', v') :: dict_set k v d'
  end.

(** The loop [for option, phonetic in d.items(): if phonetic == code:
    return option]. *)
Fixpoint first_with_code (code : string) (d : dict) : option string :=
  match d with
  | [] => None
  | (option, phonetic) :: d' =>
      if decide (phonetic = code) then Some option else first_with_code code d'
  end.

(** A string is true when it is not empty. *)
Definition truthy (s : string) : bool := negb (bool_decide (s = "")).

Section Collaborators.

(** [metaphone.doublemetaphone] and [jellyfish.soundex]. *)
Variable doublemetaphone : string → string * string.
Variable soundex : string → string.

(** The scorer of [rapidfuzz.process.extractOne]: a similarity, higher is
    better. *)
Variable scorer : string → string → Q.

(** [metaphone_primary or metaphone_secondary or jellyfish.soundex(word)] *)
Definition get_phonetic_representation (word : string) : string :=
  let '(metaphone_primary, metaphone_secondary) := doublemetaphone word in
  if truthy metaphone_primary then metaphone_primary
  else if truthy metaphone_secondary then metaphone_secondary
  else soundex word.

(** [rapidfuzz.process.extractOne(query, choices, score_cutoff=cutoff)] as
    the library documents it: the first choice with the highest score
    among those that score at least [cutoff], as [(choice, score, index)].
    [best] is the best choice so far and [i] the index of the next one. *)
Fixpoint extract_from (query : string) (cutoff : Q)
    (best : option (string * Q * nat)) (i : nat) (choices : list string)
    : option (string * Q * nat) :=
  match choices with
  | [] => best
  | choice :: rest =>
      let score := scorer query choice in
      let better :=
        match best with
        | None => true
        | Some (_, result_score, _) => negb (Qle_bool score result_score)
        end in
      if Qle_bool cutoff score && better
      then extract_from query cutoff (Some (choice, score, i)) (S i) rest
      else extract_from query cutoff best (S i) rest
  end.

Definition extractOne (query : string) (choices : list string) (score_cutoff : Q)
    : option (string * Q * nat) :=
  extract_from query score_cutoff None 0 choices.

(** [{option: get_phonetic_representation(option) for option in options}] *)
Definition phonetic_map_of (options : list string) : dict :=
  foldl (λ d option, dict_set option (get_phonetic_representation option) d)
        [] options.

Definition find_best_phonetic_match (target : string) (options : list string)
    : option string :=
  let target_phonetic := get_phonetic_representation target in
  let phonetic_map := phonetic_map_of options in
  match extractOne target_phonetic (snd <$> phonetic_map) 70 with
  | Some best_match => first_with_code (fst (fst best_match)) phonetic_map
  | None => None
  end.

(** The score of an option: that of its phonetic code against the code of
    the target. *)
Definition option_score (target option : string) : Q :=
  scorer (get_phonetic_representation target) (get_phonetic_representation option).

(** ** The phonetic map *)

Local Abbreviation phon := get_phonetic_representation.

(** Every value of the map is the code of its key. *)
Definition coded (d : dict) : Prop := ∀ k v, (k, v) ∈ d → v = phon k.

Lemma dict_set_coded o d :
  coded d →
  (dict_set o (phon o) d = d ∧ (o, phon o) ∈ d) ∨
  dict_set o (phon o) d = d ++ [(o, phon o)].
Proof.
  induction d as [|[k v] d IH]; intros Hd; [by right|].
  simpl. destruct (decide (o = k)) as [->|Hne].
  - left. rewrite <- (Hd k v) by left. split; [done|left].
  - destruct IH as [[-> Hin] | ->].
    + intros k' v' Hin. apply Hd. by right.
    + left. split; [done|by right].
    + by right.
Qed.

Lemma dict_set_elem_of o d k v :
  coded d →
  (k, v) ∈ dict_set o (phon o) d ↔ (k, v) ∈ d ∨ (k = o ∧ v = phon o).
Proof.
  intros Hd. destruct (dict_set_coded o d Hd) as [[-> Hin] | ->].
  - split; [by left|]. intros [?|[-> ->]]; done.
  - rewrite elem_of_app, list_elem_of_singleton. split.
    + intros [?|[= -> ->]]; [by left|by right].
    + intros [?|[-> ->]]; [by left|by right].
Qed.

Lemma dict_set_preserves_coded o d : coded d → coded (dict_set o (phon o) d).
Proof.
  intros Hd k v [Hin|[-> ->]]%dict_set_elem_of; [by apply Hd|done|done].
Qed.

Lemma first_with_code_app w d1 d2 :
  first_with_code w (d1 ++ d2) =
    match first_with_code w d1 with
    | Some o => Some o
    | None => first_with_code w d2
    end.
Proof.
  induction d1 as [|[k v] d1 IH]; [done|].
  simpl. by destruct (decide (v = w)).
Qed.

Lemma first_with_code_is_Some w d o : (o, w) ∈ d → is_Some (first_with_code w d).
Proof.
  induction d as [|[k v] d IH]; intros Hin; [by apply elem_of_nil in Hin|].
  simpl. destruct (decide (v = w)) as [->|Hne]; [done|].
  apply elem_of_cons in Hin as [[= -> ->]|Hin]; [done|by apply IH].
Qed.

Lemma first_with_code_dict_set w o d :
  coded d →
  first_with_code w (dict_set o (phon o) d) =
    match first_with_code w d with
    | Some x => Some x
    | None => first_with_code w [(o, phon o)]
    end.
Proof.
  intros Hd. destruct (dict_set_coded o d Hd) as [[-> Hin] | ->].
  - destruct (first_with_code w d) as [x|] eqn:Hx; [done|].
    simpl. destruct (decide (phon o = w)) as [<-|Hne]; [|done].
    apply first_with_code_is_Some in Hin as [y Hy]. congruence.
  - apply first_with_code_app.
Qed.

(** The pairs [(option, code)] in the order of the options, repeats
    included. *)
Definition coded_options (options : list string) : dict :=
  (λ o, (o, phon o)) <$> options.

Lemma phonetic_map_from acc options :
  coded acc →
  let d := foldl (λ d option, dict_set option (phon option) d) acc options in
  coded d ∧
  (∀ k v, (k, v) ∈ d ↔ (k, v) ∈ acc ∨ (k ∈ options ∧ v = phon k)) ∧
  (∀ w, first_with_code w d =
          match first_with_code w acc with
          | Some x => Some x
          | None => first_with_code w (coded_options options)
          end).
Proof.
  revert acc. induction options as [|o options IH]; intros acc Hacc; simpl.
  { split_and!; [done| |].
    - intros k v. split; [by left|]. intros [?|[[]%elem_of_nil _]]. done.
    - intros w. by destruct (first_with_code w acc). }
  destruct (IH _ (dict_set_preserves_coded o acc Hacc)) as (Hd & Hmem & Hfirst).
  split_and!; [done| |].
  - intros k v. rewrite Hmem, (dict_set_elem_of o acc k v Hacc), elem_of_cons.
    split.
    + intros [[?|[-> ->]]|[? ->]]; [by left|right|right]; (split; [|done]);
        [by left|by right].
    + intros [?|[[->|?] ->]]; [by left; left|by left; right|by right].
  - intros w. rewrite Hfirst, (first_with_code_dict_set w o acc Hacc).
    destruct (first_with_code w acc) as [x|]; [done|].
    simpl. by destruct (decide (phon o = w)).
Qed.

Lemma first_coded_option w options o :
  first_with_code w (coded_options options) = Some o →
  phon o = w ∧
  ∃ i, options !! i = Some o ∧
       ∀ j o', (j < i)%nat → options !! j = Some o' → phon o' ≠ w.
Proof.
  induction options as [|x options IH]; [done|].
  simpl. destruct (decide (phon x = w)) as [Hx|Hx].
  - intros [= ->]. split; [done|]. exists 0%nat. split; [done|]. lia.
  - intros (Ho & i & Hi & Hbefore)%IH. split; [done|].
    exists (S i). split; [done|].
    intros [|j] o' Hj Ho'; simplify_eq/=; [done|]. apply (Hbefore j); [lia|done].
Qed.

Lemma phonetic_map_of_spec options :
  (∀ o, o ∈ options → phon o ∈ (phonetic_map_of options).*2) ∧
  (∀ w, first_with_code w (phonetic_map_of options)
        = first_with_code w (coded_options options)).
Proof.
  destruct (phonetic_map_from [] options) as (_ & Hmem & Hfirst).
  { by intros k v []%elem_of_nil. }
  split; [|done].
  intros o Ho. apply list_elem_of_fmap. exists (o, phon o). split; [done|].
  apply Hmem. by right.
Qed.

(** ** The best choice *)

Lemma extract_from_spec query cutoff choices : ∀ best i,
  (∀ w s k, best = Some (w, s, k) → cutoff <= s) →
  match extract_from query cutoff best i choices with
  | None => best = None ∧ ∀ c, c ∈ choices → scorer query c < cutoff
  | Some (w, s, k) =>
      cutoff <= s ∧
      (best = Some (w, s, k) ∨ (w ∈ choices ∧ s = scorer query w)) ∧
      (∀ c, c ∈ choices → scorer query c <= s) ∧
      (∀ w0 s0 k0, best = Some (w0, s0, k0) → s0 <= s)
  end.
Proof.
  induction choices as [|c choices IH]; intros best i Hbest; simpl.
  { destruct best as [[[w s] k]|].
    - split_and!; [by eapply Hbest|by left| |].
      + by intros c []%elem_of_nil.
      + intros w0 s0 k0 [= -> -> ->]. apply Qle_refl.
    - split; [done|]. by intros c []%elem_of_nil. }
  destruct (Qle_bool cutoff (scorer query c)) eqn:Hcut; simpl.
  - apply Qle_bool_iff in Hcut.
    destruct best as [[[w0 s0] k0]|]; simpl.
    + destruct (Qle_bool (scorer query c) s0) eqn:Hle; simpl.
      * apply Qle_bool_iff in Hle.
        specialize (IH (Some (w0, s0, k0)) (S i) Hbest).
        destruct (extract_from _ _ _ _ choices) as [[[w s] k]|].
        -- destruct IH as (Hs & Hwho & Hall & Hbetter).
           split_and!; [done| |  |done].
           ++ destruct Hwho as [?|[? ?]]; [by left|right]. split; [by right|done].
           ++ intros c' [->|Hc']%elem_of_cons; [|by apply Hall].
              apply (Qle_trans _ s0); [done|]. by eapply Hbetter.
        -- by destruct IH.
      * assert (s0 < scorer query c) as Hlt.
        { apply Qnot_le_lt. intros Hcontra%Qle_bool_iff. congruence. }
        assert (∀ w s k, Some (c, scorer query c, i) = Some (w, s, k) → cutoff <= s)
          as Hbest' by (by intros ??? [= <- <- <-]).
        specialize (IH _ (S i) Hbest').
        destruct (extract_from _ _ _ _ choices) as [[[w s] k]|]; [|by destruct IH].
        destruct IH as (Hs & Hwho & Hall & Hbetter).
        assert (scorer query c <= s) as Hcs by (by eapply Hbetter).
        split_and!; [done| | |].
        -- right. destruct Hwho as [[= <- <- <-]|[? ?]]; (split; [|done]);
             [left|by right].
        -- intros c' [->|Hc']%elem_of_cons; [done|by apply Hall].
        -- intros w1 s1 k1 [= -> -> ->]. apply Qlt_le_weak in Hlt.
           by apply (Qle_trans _ (scorer query c)).
    + assert (∀ w s k, Some (c, scorer query c, i) = Some (w, s, k) → cutoff <= s)
        as Hbest' by (by intros ??? [= <- <- <-]).
      specialize (IH _ (S i) Hbest').
      destruct (extract_from _ _ _ _ choices) as [[[w s] k]|]; [|by destruct IH].
      destruct IH as (Hs & Hwho & Hall & Hbetter).
      assert (scorer query c <= s) as Hcs by (by eapply Hbetter).
      split_and!; [done| | |done].
      * right. destruct Hwho as [[= <- <- <-]|[? ?]]; (split; [|done]);
          [left|by right].
      * intros c' [->|Hc']%elem_of_cons; [done|by apply Hall].
  - assert (scorer query c < cutoff) as Hlt.
    { apply Qnot_le_lt. intros Hcontra%Qle_bool_iff. congruence. }
    specialize (IH best (S i) Hbest).
    destruct (extract_from _ _ _ _ choices) as [[[w s] k]|].
    + destruct IH as (Hs & Hwho & Hall & Hbetter).
      split_and!; [done| | |done].
      * destruct Hwho as [?|[? ?]]; [by left|right]. split; [by right|done].
      * intros c' [->|Hc']%elem_of_cons; [|by apply Hall].
        apply Qlt_le_weak. by eapply Qlt_le_trans.
    + destruct IH as [-> Hall]. split; [done|].
      intros c' [->|Hc']%elem_of_cons; [done|by apply Hall].
Qed.

Lemma extractOne_spec query choices cutoff :
  match extractOne query choices cutoff with
  | None => ∀ c, c ∈ choices → scorer query c < cutoff
  | Some (w, s, _) =>
      cutoff <= s ∧ w ∈ choices ∧ s = scorer query w ∧
      ∀ c, c ∈ choices → scorer query c <= s
  end.
Proof.
  unfold extractOne.
  pose proof (extract_from_spec query cutoff choices None 0%nat) as Hspec.
  destruct (extract_from _ _ _ _ choices) as [[[w s] k]|].
  - destruct Hspec as (Hs & [?|[? ?]] & Hall & _); done.
  - by destruct Hspec.
Qed.

(** C6: the result is nothing exactly when no option's code scores at
    least 70 against the code of the target; and a returned option has a
    best-scoring code, scoring at least 70, and is the first of the
    options with that code. *)
Theorem find_best_phonetic_match_contract (target : string) (options : list string) :
  (find_best_phonetic_match target options = None ↔
     ∀ o, o ∈ options → option_score target o < 70) ∧
  (∀ o, find_best_phonetic_match target options = Some o →
     70 <= option_score target o ∧
     (∀ o', o' ∈ options → option_score target o' <= option_score target o) ∧
     ∃ i, options !! i = Some o ∧
          ∀ j o', (j < i)%nat → options !! j = Some o' → phon o' ≠ phon o).
Proof.
  unfold find_best_phonetic_match, option_score.
  destruct (phonetic_map_of_spec options) as [Hcodes Hfirst].
  set (d := phonetic_map_of options) in *.
  pose proof (extractOne_spec (phon target) d.*2 70) as Hbest.
  destruct (extractOne (phon target) d.*2 70) as [[[w s] k]|]; cbn [fst].
  - destruct Hbest as (Hs & Hw & -> & Hall).
    apply list_elem_of_fmap in Hw as ([o0 w0] & -> & Hin). cbn [snd] in *.
    destruct (first_with_code_is_Some w0 d o0 Hin) as [o Ho].
    rewrite Ho. pose proof Ho as Ho'. rewrite Hfirst in Ho'.
    apply first_coded_option in Ho' as (Hcode & i & Hi & Hbefore).
    assert (o ∈ options) as Hoin by (by eapply list_elem_of_lookup_2).
    split.
    + split; [done|]. intros Hlow. specialize (Hlow o Hoin).
      rewrite Hcode in Hlow. by apply Qlt_not_le in Hlow.
    + intros ? [= <-]. rewrite Hcode. split_and!; [done| |].
      * intros o' Ho'. by apply Hall, Hcodes.
      * by exists i.
  - split; [|done]. split; [|done].
    intros _ o Ho. by apply Hbest, Hcodes.
Qed.

End Collaborators.

(** ** An example with stand-ins for the collaborators *)

(** A stand-in phonetic code: lowercase, with [y] read as [i]. *)
Fixpoint toy_code (s : string) : string :=
  match s with
  | EmptyString => EmptyString
  | String c s' =>
      let c' := Text.lower_char c in
      String (if decide (c' = "y"%char) then "i"%char else c') (toy_code s')
  end.

Definition toy_metaphone (s : string) : string * string := (toy_code s, "").

(** A stand-in scorer: 100 for equal codes, 40 otherwise. *)
Definition toy_scorer (a b : string) : Q := if decide (a = b) then 100 else 40.

Example phonetic_match_first_of_equal_codes :
  find_best_phonetic_match toy_metaphone toy_code toy_scorer
    "Smith" ["Jones"; "Smyth"; "smith"; "Smyth"] = Some "Smyth".
Proof. vm_compute. reflexivity. Qed.

Lemma find_best_phonetic_match_contract_witness :
  let options := ["Jones"; "Smyth"; "smith"; "Smyth"] in
  70 <= option_score toy_metaphone toy_code toy_scorer "Smith" "Smyth" ∧
  (∀ o', o' ∈ options →
     option_score toy_metaphone toy_code toy_scorer "Smith" o'
     <= option_score toy_metaphone toy_code toy_scorer "Smith" "Smyth") ∧
  ∃ i, options !! i = Some "Smyth" ∧
       ∀ j o', (j < i)%nat → options !! j = Some o' →
         get_phonetic_representation toy_metaphone toy_code o'
         ≠ get_phonetic_representation toy_metaphone toy_code "Smyth".
Proof.
  apply (proj2 (find_best_phonetic_match_contract toy_metaphone toy_code toy_scorer
                  "Smith" ["Jones"; "Smyth"; "smith"; "Smyth"])).
  vm_compute. reflexivity.
Defined.

Example phonetic_match_below_cutoff :
  find_best_phonetic_match toy_metaphone toy_code toy_scorer
    "Smith" ["Jones"; "Brown"] = None.
Proof. vm_compute. reflexivity. Qed.

End Matching.

(* ===================================================================== *)
(** * Summarization: [get_main_idea]                                     *)
(* ===================================================================== *)

Module Summarize.

Import Text.

(** The four summarizer classes of [sumy]. *)
Inductive summarizer_class :=
  | LuhnSummarizer
  | LexRankSummarizer
  | LsaSummarizer
  | TextRankSummarizer.

(** The dictionary [summarizers], in the order it is written. *)
Definition summarizers : list (string * summarizer_class) :=
  [ ("luhn", LuhnSummarizer);
    ("lex_rank", LexRankSummarizer);
    ("lsa", LsaSummarizer);
    ("text_rank", TextRankSummarizer) ].

(** [d.keys()] *)
Definition keys {V} (d : list (string * V)) : list string := fst <$> d.

(** [d[k]], with [None] for a [KeyError]. *)
Fixpoint dict_get {V} (k : string) (d : list (string * V)) : option V :=
  match d with
  | [] => None
  | (k', v) :: d' => if decide (k = k') then Some v else dict_get k d'
  end.

Inductive exn :=
  | ValueError (msg : string)
  | KeyError (key : string).

Section Sumy.

(** What [sumy] does with the class selected: parse [passage] as English
    text, run an instance of the class for [sentences] sentences, and
    render each sentence of the summary with [str]. *)
Variable summarize : summarizer_class → string → Z → list string.

Definition get_main_idea (passage : string) (sentences : Z) (summarizer : string)
    : exn + string :=
  if negb (bool_decide (summarizer ∈ keys summarizers)) then
    inl (ValueError ("Invalid summarizer '" +:+ summarizer +:+
                     "'. Choose from: " +:+ join ", " (keys summarizers)))
  else
    match dict_get summarizer summarizers with
    | None => inl (KeyError summarizer)
    | Some cls => inr (join " " (summarize cls passage sentences))
    end.

(** The four recognized names. *)
Definition recognized : list string := ["lsa"; "lex_rank"; "luhn"; "text_rank"].

Lemma recognized_keys s : s ∈ recognized ↔ s ∈ keys summarizers.
Proof.
  unfold recognized, keys, summarizers. cbn [fmap list_fmap fst].
  rewrite !elem_of_cons, !elem_of_nil. tauto.
Qed.

Lemma dict_get_is_Some {V} k (d : list (string * V)) :
  k ∈ keys d → is_Some (dict_get k d).
Proof.
  induction d as [|[k' v] d IH]; intros Hk; [by apply elem_of_nil in Hk|].
  simpl. destruct (decide (k = k')) as [->|Hne]; [done|].
  apply IH. unfold keys in Hk. cbn in Hk.
  by apply elem_of_cons in Hk as [?|?].
Qed.

(** C9: [get_main_idea] raises the [ValueError] exactly when the name is
    not one of the four recognized ones; for each of the four it returns
    the summary of the class registered under the name, joined by
    spaces. *)
Theorem get_main_idea_contract (passage : string) (sentences : Z) (summarizer : string) :
  ((∃ msg, get_main_idea passage sentences summarizer = inl (ValueError msg))
     ↔ summarizer ∉ recognized) ∧
  (summarizer ∈ recognized →
     ∃ cls, dict_get summarizer summarizers = Some cls ∧
            get_main_idea passage sentences summarizer
            = inr (join " " (summarize cls passage sentences))) ∧
  get_main_idea passage sentences "lsa"
    = inr (join " " (summarize LsaSummarizer passage sentences)) ∧
  get_main_idea passage sentences "lex_rank"
    = inr (join " " (summarize LexRankSummarizer passage sentences)) ∧
  get_main_idea passage sentences "luhn"
    = inr (join " " (summarize LuhnSummarizer passage sentences)) ∧
  get_main_idea passage sentences "text_rank"
    = inr (join " " (summarize TextRankSummarizer passage sentences)).
Proof.
  assert (summarizer ∈ recognized →
     ∃ cls, dict_get summarizer summarizers = Some cls ∧
            get_main_idea passage sentences summarizer
            = inr (join " " (summarize cls passage sentences))) as Hok.
  { intros Hin%recognized_keys. unfold get_main_idea.
    rewrite bool_decide_eq_true_2 by done. cbn [negb].
    destruct (dict_get_is_Some _ _ Hin) as [cls Hcls].
    rewrite Hcls. by exists cls. }
  split_and!; [|done..].
  split.
  - intros [msg Hraise] Hin. destruct (Hok Hin) as (cls & _ & Hrun). congruence.
  - intros Hout. unfold get_main_idea.
    rewrite bool_decide_eq_false_2 by (by rewrite <- recognized_keys).
    cbn [negb]. eauto.
Qed.

End Sumy.

(** ** An example with a stand-in for the library *)

Lemma get_main_idea_contract_witness :
  (∃ msg, get_main_idea (λ _ _ _, ["One."; "Two."]) "One. Two. Three." 2 "LSA"
          = inl (ValueError msg)) ∧
  ∃ cls, dict_get "lsa" summarizers = Some cls ∧
         get_main_idea (λ _ _ _, ["One."; "Two."]) "One. Two. Three." 2 "lsa"
         = inr (join " " ["One."; "Two."]).
Proof.
  destruct (get_main_idea_contract (λ _ _ _, ["One."; "Two."])
              "One. Two. Three." 2 "LSA") as ([_ Hraise] & _).
  destruct (get_main_idea_contract (λ _ _ _, ["One."; "Two."])
              "One. Two. Three." 2 "lsa") as (_ & Hok & _).
  split.
  - apply Hraise. unfold recognized.
    rewrite !elem_of_cons, elem_of_nil. intros [?|[?|[?|[?|[]]]]]; discriminate.
  - apply Hok. unfold recognized. rewrite !elem_of_cons. by left.
Defined.

Example get_main_idea_unknown :
  get_main_idea (λ _ _ _, []) "Some text." 1 "LSA"
  = inl (ValueError
      "Invalid summarizer 'LSA'. Choose from: luhn, lex_rank, lsa, text_rank").
Proof. reflexivity. Qed.

End Summarize.

(* ===================================================================== *)
(** * Facts about the [str] helpers                                      *)
(* ===================================================================== *)

Module TextFacts.

Import Text.

(** ** Lowercasing and the character classes *)

Lemma lower_char_idem c : lower_char (lower_char c) = lower_char c.
Proof. by destruct c as [[] [] [] [] [] [] [] []]. Qed.

Lemma is_word_lower_char c : is_word (lower_char c) = is_word c.
Proof. by destruct c as [[] [] [] [] [] [] [] []]. Qed.

Lemma is_space_lower_char c : is_space (lower_char c) = is_space c.
Proof. by destruct c as [[] [] [] [] [] [] [] []]. Qed.

Lemma is_digit_lower_char c : is_digit (lower_char c) = is_digit c.
Proof. by destruct c as [[] [] [] [] [] [] [] []]. Qed.

Lemma in_class_lower_char cls c : in_class cls (lower_char c) = in_class cls c.
Proof. destruct cls; [apply is_space_lower_char|apply is_digit_lower_char]. Qed.

Lemma lower_idem s : lower (lower s) = lower s.
Proof. induction s as [|c s IH]; [done|]. simpl. by rewrite lower_char_idem, IH. Qed.

Lemma lower_empty_inv s : lower s = "" → s = "".
Proof. by destruct s. Qed.

Lemma length_lower s : String.length (lower s) = String.length s.
Proof. induction s as [|c s IH]; [done|]. simpl. by rewrite IH. Qed.

Lemma length_app_s s t :
  String.length (s +:+ t) = (String.length s + String.length t)%nat.
Proof. induction s as [|c s IH]; [done|]. rewrite app_cons. simpl. by rewrite IH. Qed.

(** ** Stripping *)

Lemma lstrip_lower s : lstrip (lower s) = lower (lstrip s).
Proof.
  induction s as [|c s IH]; [done|].
  simpl. rewrite is_space_lower_char. by destruct (is_space c).
Qed.

Lemma rstrip_lower s : rstrip (lower s) = lower (rstrip s).
Proof.
  induction s as [|c s IH]; [done|].
  simpl. rewrite IH, is_space_lower_char.
  destruct (rstrip s); simpl; [by destruct (is_space c)|done].
Qed.

Lemma strip_lower s : strip (lower s) = lower (strip s).
Proof. unfold strip. by rewrite lstrip_lower, rstrip_lower. Qed.

Lemma lstrip_spaces_app ws t :
  all_chars is_space ws = true → lstrip (ws +:+ t) = lstrip t.
Proof.
  induction ws as [|c ws IH]; [done|].
  intros [Hc Hws]%andb_true_iff. rewrite app_cons. simpl.
  rewrite Hc. by apply IH.
Qed.

Lemma rstrip_spaces ws : all_chars is_space ws = true → rstrip ws = "".
Proof.
  induction ws as [|c ws IH]; [done|].
  simpl. intros [Hc Hws]%andb_true_iff. by rewrite (IH Hws), Hc.
Qed.

Lemma rstrip_app_spaces t ws :
  all_chars is_space ws = true → rstrip (t +:+ ws) = rstrip t.
Proof.
  intros Hws. induction t as [|c t IH].
  - rewrite app_empty_l. by apply rstrip_spaces.
  - rewrite app_cons. simpl. by rewrite IH.
Qed.

Lemma strip_app_spaces s ws :
  all_chars is_space ws = true → strip (s +:+ ws) = strip s.
Proof.
  intros Hws. unfold strip. induction s as [|c s IH].
  - rewrite app_empty_l, <- (app_empty_r ws), (lstrip_spaces_app ws "" Hws). done.
  - rewrite app_cons. simpl. destruct (is_space c); [done|].
    by rewrite <- app_cons, rstrip_app_spaces.
Qed.

(** Blanks around a text do not change what [strip] returns. *)
Lemma strip_padding ws s ws' :
  all_chars is_space ws = true → all_chars is_space ws' = true →
  strip (ws +:+ s +:+ ws') = strip s.
Proof.
  intros Hws Hws'. unfold strip. rewrite (lstrip_spaces_app ws _ Hws).
  by apply strip_app_spaces.
Qed.

(** ** Properties of all characters *)

Lemma all_chars_lstrip f s : all_chars f s = true → all_chars f (lstrip s) = true.
Proof.
  induction s as [|c s IH]; [done|].
  simpl. intros [Hc Hs]%andb_true_iff.
  destruct (is_space c); [by apply IH|]. simpl. by rewrite Hc, Hs.
Qed.

Lemma all_chars_rstrip f s : all_chars f s = true → all_chars f (rstrip s) = true.
Proof.
  induction s as [|c s IH]; [done|].
  simpl. intros [Hc Hs]%andb_true_iff. specialize (IH Hs).
  destruct (rstrip s) as [|d r].
  - destruct (is_space c); [done|]. simpl. by rewrite Hc.
  - cbn [all_chars] in *. by rewrite Hc, IH.
Qed.

Lemma all_chars_lower f s :
  (∀ c, f (lower_char c) = f c) →
  all_chars f s = true → all_chars f (lower s) = true.
Proof.
  intros Hf. induction s as [|c s IH]; [done|].
  simpl. intros [Hc Hs]%andb_true_iff. by rewrite Hf, Hc, IH.
Qed.

End TextFacts.

(* ===================================================================== *)
(** * Further properties of the sorting functions                        *)
(* ===================================================================== *)

Module SortingFacts.

Import Sorting.

Local Open Scope Z_scope.

(** A sorted list is returned as it is by each of the three sorts. *)
Theorem sorts_keep_sorted_input (s : list Z) :
  Sorted Z.le s →
  bubble_sort s = Some s ∧ selection_sort s = Some s ∧ insertion_sort s = Some s.
Proof.
  intros Hs. apply Sorted_StronglySorted in Hs; [|apply _].
  destruct (bubble_sort_spec s) as (rb & -> & Hpb & Hsb).
  destruct (selection_sort_spec s) as (rs & -> & Hps & Hss).
  destruct (insertion_sort_spec s) as (ri & -> & Hpi & Hsi).
  split_and!; f_equal; by apply (StronglySorted_unique Z.le).
Qed.

Lemma sorts_keep_sorted_input_witness :
  bubble_sort [-3; 0; 0; 7] = Some [-3; 0; 0; 7] ∧
  selection_sort [-3; 0; 0; 7] = Some [-3; 0; 0; 7] ∧
  insertion_sort [-3; 0; 0; 7] = Some [-3; 0; 0; 7].
Proof.
  apply (sorts_keep_sorted_input [-3; 0; 0; 7]).
  repeat constructor; lia.
Defined.

(** The result of a sort depends on the elements of its input only, not on
    their order: two lists that are permutations of each other are sorted
    to the same list. *)
Theorem sorts_ignore_input_order (s t : list Z) :
  s ≡ₚ t →
  bubble_sort s = bubble_sort t ∧
  selection_sort s = selection_sort t ∧
  insertion_sort s = insertion_sort t.
Proof.
  intros Hst.
  destruct (bubble_sort_spec s) as (rb & -> & Hpb & Hsb).
  destruct (bubble_sort_spec t) as (rb' & -> & Hpb' & Hsb').
  destruct (selection_sort_spec s) as (rs & -> & Hps & Hss).
  destruct (selection_sort_spec t) as (rs' & -> & Hps' & Hss').
  destruct (insertion_sort_spec s) as (ri & -> & Hpi & Hsi).
  destruct (insertion_sort_spec t) as (ri' & -> & Hpi' & Hsi').
  split_and!; f_equal; apply (StronglySorted_unique Z.le); try done.
  - by rewrite Hpb, Hpb', Hst.
  - by rewrite Hps, Hps', Hst.
  - by rewrite Hpi, Hpi', Hst.
Qed.

Lemma sorts_ignore_input_order_witness :
  bubble_sort [3; 1; 2] = bubble_sort [2; 3; 1] ∧
  selection_sort [3; 1; 2] = selection_sort [2; 3; 1] ∧
  insertion_sort [3; 1; 2] = insertion_sort [2; 3; 1].
Proof.
  apply (sorts_ignore_input_order [3; 1; 2] [2; 3; 1]).
  exact (perm_trans (perm_skip 3 (perm_swap 2 1 [])) (perm_swap 2 3 [1])).
Defined.

End SortingFacts.

(* ===================================================================== *)
(** * Further properties of [sanitize_text]                              *)
(* ===================================================================== *)

Module SanitizeFacts.

Import Text Sanitize TextFacts.

(** [passes text ks]: with the keywords [ks], the text comes back
    unchanged and without a diagnostic. *)
Definition passes (text : string) (ks : list string) : Prop :=
  sanitize_text text (keyword_list ks) = inr (text, "").

(** ** Lowercasing a text does not change what matches *)

Lemma same_caseless_lower_char c x :
  same_caseless c (lower_char x) = same_caseless c x.
Proof. unfold same_caseless. by rewrite lower_char_idem. Qed.

Lemma at_boundary_lower prev s :
  at_boundary (lower_char <$> prev) (lower s) = at_boundary prev s.
Proof.
  unfold at_boundary. f_equal.
  - destruct prev; simpl; [apply is_word_lower_char|done].
  - destruct s; simpl; [done|apply is_word_lower_char].
Qed.

Lemma match_more_lower cls (k k' : option ascii → string → option string) :
  (∀ prev s, k' (lower_char <$> prev) (lower s) = lower <$> k prev s) →
  ∀ s x, match_more cls k' (lower_char x) (lower s)
         = lower <$> match_more cls k x s.
Proof.
  intros Hk. induction s as [|y s IH]; intros x.
  { simpl. apply (Hk (Some x) ""). }
  cbn [lower match_more]. rewrite in_class_lower_char.
  destruct (in_class cls y); [|apply (Hk (Some x) (String y s))].
  rewrite IH. destruct (match_more cls k y s); [done|].
  apply (Hk (Some x) (String y s)).
Qed.

Lemma match_here_lower p : ∀ prev s,
  match_here p (lower_char <$> prev) (lower s) = lower <$> match_here p prev s.
Proof.
  induction p as [|a p IH]; intros prev s; [done|].
  destruct a as [|c|cls]; cbn [match_here].
  - rewrite at_boundary_lower. by destruct (at_boundary prev s).
  - destruct s as [|x s]; [done|]. cbn [lower].
    rewrite same_caseless_lower_char. destruct (same_caseless c x); [|done].
    change (Some (lower_char x)) with (lower_char <$> Some x).
    rewrite (IH (Some x) s). by destruct (match_here p (Some x) s).
  - destruct s as [|x s]; [done|]. cbn [lower].
    rewrite in_class_lower_char. destruct (in_class cls x); [|done].
    rewrite (match_more_lower cls (match_here p) (match_here p) IH).
    by destruct (match_more cls (match_here p) x s).
Qed.

Lemma match_any_lower ps prev s :
  match_any ps (lower_char <$> prev) (lower s) = lower <$> match_any ps prev s.
Proof.
  induction ps as [|p ps IH]; [done|].
  simpl. rewrite match_here_lower. by destruct (match_here p prev s).
Qed.

Lemma search_from_lower ps text : ∀ prev,
  search_from ps (lower_char <$> prev) (lower text)
  = lower <$> search_from ps prev text.
Proof.
  induction text as [|x text IH]; intros prev.
  - pose proof (match_any_lower ps prev "") as Hany.
    cbn [lower search_from] in *. rewrite Hany.
    by destruct (match_any ps prev "").
  - pose proof (match_any_lower ps prev (String x text)) as Hany.
    cbn [lower search_from] in *. rewrite Hany.
    destruct (match_any ps prev (String x text)); [done|].
    apply (IH (Some x)).
Qed.

Lemma search_lower ps text : search ps (lower text) = lower <$> search ps text.
Proof. apply (search_from_lower ps text None). Qed.

(** ** Passing is the absence of a match *)

Lemma passes_iff_search text ks :
  passes text ks ↔ search (DENYLIST ++ (literal <$> ks)) text = None.
Proof.
  unfold passes. rewrite sanitize_text_keyword_list.
  destruct (search _ text) as [g|]; [|done].
  split; [|done]. intros Heq. by inversion Heq.
Qed.

Lemma search_None_iff ps text :
  search ps text = None ↔ ∀ p g, p ∈ ps → ¬ occurs p text g.
Proof.
  split; [apply search_None|].
  intros Hno. destruct (search ps text) as [g|] eqn:Hg; [|done].
  apply search_Some in Hg as (p & Hp & Ho). by destruct (Hno p g).
Qed.



(** A text passes the keywords [ks1 ++ ks2] exactly when it passes [ks1]
    and passes [ks2]: keywords only ever add reasons to block. *)
Theorem sanitize_text_keywords_add_up (text : string) (ks1 ks2 : list string) :
  passes text (ks1 ++ ks2) ↔ passes text ks1 ∧ passes text ks2.
Proof.
  rewrite !passes_iff_search, !search_None_iff. split.
  - intros Hno. split; intros p g Hp; apply Hno;
      apply elem_of_app in Hp as [Hp|Hp]; apply elem_of_app;
      first [by left|right]; rewrite fmap_app; apply elem_of_app; auto.
  - intros [Hno1 Hno2] p g [Hp|Hp]%elem_of_app.
    + apply Hno1, elem_of_app. by left.
    + rewrite fmap_app in Hp. apply elem_of_app in Hp as [Hp|Hp].
      * apply Hno1, elem_of_app. by right.
      * apply Hno2, elem_of_app. by right.
Qed.

(** ** The empty text *)

Lemma app_empty_inv pre g rest : "" = pre +:+ g +:+ rest → g = "".
Proof. destruct pre; [|done]. rewrite app_empty_l. by destruct g. Qed.

(** The empty text passes exactly when the empty string is not among the
    keywords. *)
Theorem sanitize_text_empty_text (ks : list string) :
  passes "" ks ↔ "" ∉ ks.
Proof.
  rewrite passes_iff_search, search_None_iff. split.
  - intros Hno Hin. apply (Hno (literal "") "").
    + apply elem_of_app. right. apply list_elem_of_fmap. eauto.
    + exists "", "". split; [done|]. constructor.
  - intros Hout p g [Hp|Hp]%elem_of_app (pre & rest & Htext & Hm).
    + pose proof (app_empty_inv _ _ _ Htext) as ->.
      destruct pre; [|done]. rewrite !app_empty_l in Htext. subst rest.
      apply match_here_complete in Hm. rewrite app_empty_l in Hm. simpl in Hm.
      assert (match_any DENYLIST None "" = None) as Hnone by (vm_compute; reflexivity).
      destruct (match_any_is_Some DENYLIST None "" p Hp Hm) as [g Hg]. congruence.
    + apply list_elem_of_fmap in Hp as (k & -> & Hk).
      apply matches_literal in Hm.
      pose proof (app_empty_inv _ _ _ Htext) as ->.
      symmetry in Hm. apply lower_empty_inv in Hm as ->. done.
Qed.

End SanitizeFacts.
(* ===================================================================== *)
(** * Further properties of [normalize_number]                           *)
(* ===================================================================== *)

Module NumbersFacts.

Import Text TextFacts PyNum Numbers.

Section Collaborators.

Variable number_to_words : string → exn + string.
Variable word_to_num : string → exn + pynum.

Local Abbreviation normalize := (normalize_number number_to_words word_to_num).

(** The result for a string depends on its normal form only. *)
Lemma normalize_number_normal_form s t :
  normal_form s = normal_form t → normalize (ArgStr s) = normalize (ArgStr t).
Proof. unfold normalize_number, normal_form. by intros ->. Qed.

(** Blanks before and after the text and the case of its letters make no
    difference: texts that agree up to them are normalized alike. *)
Theorem normalize_number_ignores_padding_and_case (ws s ws' t : string) :
  all_chars is_space ws = true → all_chars is_space ws' = true →
  lower s = lower t →
  normalize (ArgStr (ws +:+ s +:+ ws')) = normalize (ArgStr t).
Proof.
  intros Hws Hws' Hst. apply normalize_number_normal_form.
  unfold normal_form. rewrite (strip_padding ws s ws' Hws Hws').
  by rewrite <- !strip_lower, Hst.
Qed.

(** ** Digit strings *)

Lemma digit_value_range c : is_digit c = true → (0 ≤ digit_value c ≤ 9)%Z.
Proof.
  unfold is_digit, between, digit_value.
  intros [?%Nat.leb_le ?%Nat.leb_le]%andb_true_iff. lia.
Qed.

Lemma int_acc_range s : ∀ acc,
  all_chars is_digit s = true → (0 ≤ acc)%Z →
  (0 ≤ int_acc acc s < (acc + 1) * 10 ^ Z.of_nat (String.length s))%Z.
Proof.
  induction s as [|c s IH]; intros acc Hs Hacc.
  { simpl. lia. }
  simpl in Hs. apply andb_true_iff in Hs as [Hc Hs].
  pose proof (digit_value_range c Hc) as Hd.
  cbn [int_acc String.length].
  destruct (IH (10 * acc + digit_value c)%Z Hs) as [Hlo Hhi]; [lia|].
  split; [done|].
  rewrite Nat2Z.inj_succ, Z.pow_succ_r by lia.
  assert (0 < 10 ^ Z.of_nat (String.length s))%Z by (apply Z.pow_pos_nonneg; lia).
  nia.
Qed.


(** ** Texts without digits *)

Lemma no_digit_normal_form s :
  all_chars (λ c, negb (is_digit c)) s = true →
  all_chars (λ c, negb (is_digit c)) (normal_form s) = true.
Proof.
  intros Hs. unfold normal_form, strip.
  apply all_chars_lower; [intros c; by rewrite is_digit_lower_char|].
  by apply all_chars_rstrip, all_chars_lstrip.
Qed.

Lemma no_digit_not_isdigit s :
  all_chars (λ c, negb (is_digit c)) s = true → isdigit s = false.
Proof.
  destruct s as [|c s]; [done|]. simpl.
  intros [Hc _]%andb_true_iff. apply negb_true_iff in Hc. by rewrite Hc.
Qed.


End Collaborators.

Lemma normalize_number_ignores_padding_and_case_witness :
  normalize_number toy_number_to_words toy_word_to_num
    (ArgStr ("  " +:+ "Forty-Two" +:+ " "))
  = normalize_number toy_number_to_words toy_word_to_num (ArgStr "forty-two").
Proof.
  by apply (normalize_number_ignores_padding_and_case
              toy_number_to_words toy_word_to_num "  " "Forty-Two" " " "forty-two").
Defined.



End NumbersFacts.
(* ===================================================================== *)
(** * Further properties of [random_within_boundary_box]                 *)
(* ===================================================================== *)

Module RandomnessFacts.

Import PyNum Randomness.

Local Open Scope Z_scope.

Section Generator.

Variable G : Type.
Variable next : G → Z * G.

(** With integer arguments and the corner at (x, y), the derived bounds
    are the corners themselves: no rounding takes place. *)
Lemma box_bounds_int x y h w :
  box_bounds (PyInt x) (PyInt y) (PyInt h) (PyInt w) false
  = inr (x, x + w, y, y + h).
Proof. done. Qed.


End Generator.


End RandomnessFacts.

(* ===================================================================== *)
(** * Further properties of [enumerate_directory]                        *)
(* ===================================================================== *)

Module DirectoryFacts.

Import Directory.

(** [bounded n it]: the item [it] nests subdirectories at most [n] levels
    deep, and none of its subdirectories has empty contents. *)
Inductive bounded : nat → item → Prop :=
  | bounded_str n s :
      bounded n (Str s)
  | bounded_subdir n dir contents :
      contents ≠ [] → Forall (bounded n) contents →
      bounded (S n) (SubDir dir contents).

Section FileSystem.

Variable exists_ : string → bool.
Variable isdir : string → bool.
Variable scandir : string → option (list DirEntry).

Local Abbreviation scan := (scan_directory scandir).
Local Abbreviation enumerate := (enumerate_directory exists_ isdir scandir).

(** What one entry contributes to the listing of its directory. *)
Lemma scan_directory_unfold depth directory :
  scan depth directory =
    match scandir directory with
    | None => []
    | Some entries =>
        flat_map (λ entry,
          if is_file entry then [Str (name entry)]
          else if is_dir entry then
            match depth with
            | S d =>
                match scan d (path entry) with
                | [] => []
                | subdir_contents => [SubDir (name entry) subdir_contents]
                end
            | O => []
            end
          else []) entries
    end.
Proof. by destruct depth. Qed.

(** The listing of a directory nests at most [depth] levels of
    subdirectories, and shows no subdirectory with empty contents. *)
Lemma scan_directory_bounded depth : ∀ directory,
  Forall (bounded depth) (scan depth directory).
Proof.
  induction depth as [|d IH]; intros directory;
    rewrite scan_directory_unfold; destruct (scandir directory) as [entries|];
    try by constructor.
  - induction entries as [|e entries IHe]; [by constructor|].
    cbn [flat_map]. apply Forall_app. split; [|done].
    destruct (is_file e); [by repeat constructor|].
    by destruct (is_dir e); constructor.
  - induction entries as [|e entries IHe]; [by constructor|].
    cbn [flat_map]. apply Forall_app. split; [|done].
    destruct (is_file e); [by repeat constructor|].
    destruct (is_dir e); [|by constructor].
    specialize (IH (path e)).
    destruct (scan d (path e)) as [|it its] eqn:Hsub; [by constructor|].
    constructor; [|constructor]. by constructor.
Qed.

Lemma enumerate_directory_lookup path levels key items :
  enumerate path levels !! key = Some items →
  (∃ msg, items = [Str msg]) ∨ items = scan (Z.to_nat levels) path.
Proof.
  unfold enumerate_directory.
  destruct (exists_ path); cbn [negb]; [destruct (isdir path); cbn [negb]|];
    intros [_ <-]%lookup_singleton_Some; eauto.
Qed.

(** Every list of a result nests subdirectories at most [levels] deep and
    shows no subdirectory with empty contents: a subdirectory that is
    empty, unreadable or cut off by the depth is left out. *)
Theorem enumerate_directory_depth_bounded
    (path : string) (levels : Z) (key : string) (items : list item) :
  enumerate path levels !! key = Some items →
  Forall (bounded (Z.to_nat levels)) items.
Proof.
  intros [[msg ->]| ->]%enumerate_directory_lookup.
  - repeat constructor.
  - apply scan_directory_bounded.
Qed.

End FileSystem.

Lemma enumerate_directory_depth_bounded_witness :
  Forall (bounded (Z.to_nat 1)) [Str "a.txt"; SubDir "logs" [Str "x.log"]].
Proof.
  apply (enumerate_directory_depth_bounded (λ _, true)
           (λ p, bool_decide (p = "/srv")) toy_scandir "/srv" 1 "/srv").
  reflexivity.
Defined.

End DirectoryFacts.

(* ===================================================================== *)
(** * Fuzzy matching: [find_best_match], and more on
      [find_best_phonetic_match]                                         *)
(* ===================================================================== *)

Module BestMatch.

Import Matching.

Local Open Scope Q_scope.

Section Collaborators.

Variable doublemetaphone : string → string * string.
Variable soundex : string → string.
Variable scorer : string → string → Q.

(** [bestMatch = process.extractOne(target, options, score_cutoff=90);
     return bestMatch[0] if bestMatch else None] *)
Definition find_best_match (target : string) (options : list string)
    : option string :=
  match extractOne scorer target options 90 with
  | Some bestMatch => Some (fst (fst bestMatch))
  | None => None
  end.

(** ** The choice [extractOne] returns is the first of the best *)

Lemma extract_from_first query cutoff choices : ∀ best i,
  match extract_from scorer query cutoff best i choices with
  | Some (w, s, k) =>
      best = Some (w, s, k) ∨
      (cutoff <= s ∧ s = scorer query w ∧
       (∀ w0 s0 k0, best = Some (w0, s0, k0) → s0 < s) ∧
       ∃ n, k = (i + n)%nat ∧ choices !! n = Some w ∧
            ∀ j c, (j < n)%nat → choices !! j = Some c → scorer query c < s)
  | None => True
  end.
Proof.
  induction choices as [|c choices IH]; intros best i; simpl.
  { destruct best as [[[w s] k]|]; [by left|done]. }
  set (sc := scorer query c).
  set (better := match best with
                 | Some (_, result_score, _) => negb (Qle_bool sc result_score)
                 | None => true
                 end).
  destruct (Qle_bool cutoff sc && better) eqn:Hacc.
  - apply andb_true_iff in Hacc as [Hcut%Qle_bool_iff Hbetter].
    assert (∀ w0 s0 k0, best = Some (w0, s0, k0) → s0 < sc) as Hbeat.
    { intros w0 s0 k0 ->. unfold better in Hbetter.
      apply negb_true_iff in Hbetter. apply Qnot_le_lt.
      intros Hle%Qle_bool_iff. congruence. }
    specialize (IH (Some (c, sc, i)) (S i)).
    destruct (extract_from _ _ _ _ _ choices) as [[[w s] k]|]; [|done].
    right. destruct IH as [[= <- <- <-]|(Hs & Hsw & Hbeat' & n & -> & Hn & Hbefore)].
    + split_and!; [done..|]. exists 0%nat. split_and!; [lia|done|]. lia.
    + assert (sc < s) as Hlt by (by eapply Hbeat').
      split_and!; [done..| |].
      * intros w0 s0 k0 Hbest. eapply Qlt_trans; [by eapply Hbeat|done].
      * exists (S n). split_and!; [lia|done|].
        intros [|j] c' Hj Hc'; simplify_eq/=; [done|].
        apply (Hbefore j); [lia|done].
  - assert (∀ s, cutoff <= s →
               (∀ w0 s0 k0, best = Some (w0, s0, k0) → s0 < s) → sc < s) as Hlow.
    { intros s Hs Hbeat. apply andb_false_iff in Hacc as [Hcut|Hbetter].
      - eapply Qlt_le_trans; [|exact Hs]. apply Qnot_le_lt.
        intros Hle%Qle_bool_iff. congruence.
      - unfold better in Hbetter. destruct best as [[[w0 s0] k0]|]; [|done].
        apply negb_false_iff, Qle_bool_iff in Hbetter.
        eapply Qle_lt_trans; [exact Hbetter|]. by eapply Hbeat. }
    specialize (IH best (S i)).
    destruct (extract_from _ _ _ _ _ choices) as [[[w s] k]|]; [|done].
    destruct IH as [?|(Hs & Hsw & Hbeat' & n & -> & Hn & Hbefore)]; [by left|].
    right. split_and!; [done..|].
    exists (S n). split_and!; [lia|done|].
    intros [|j] c' Hj Hc'; simplify_eq/=; [by apply Hlow|].
    apply (Hbefore j); [lia|done].
Qed.

Lemma find_best_match_elem target options o :
  find_best_match target options = Some o → o ∈ options.
Proof.
  unfold find_best_match.
  pose proof (extractOne_spec scorer target options 90) as Hspec.
  destruct (extractOne scorer target options 90) as [[[w s] k]|]; [|done].
  intros [= <-]. by destruct Hspec as (_ & ? & _).
Qed.

(** [find_best_match] returns nothing exactly when every option scores
    below 90; an option it returns scores at least 90, no option scores
    higher, and every option before it scores strictly lower. *)
Theorem find_best_match_contract (target : string) (options : list string) :
  (find_best_match target options = None ↔
     ∀ o, o ∈ options → scorer target o < 90) ∧
  (∀ o, find_best_match target options = Some o →
     90 <= scorer target o ∧
     (∀ o', o' ∈ options → scorer target o' <= scorer target o) ∧
     ∃ i, options !! i = Some o ∧
          ∀ j o', (j < i)%nat → options !! j = Some o' →
                  scorer target o' < scorer target o).
Proof.
  unfold find_best_match, extractOne.
  pose proof (extractOne_spec scorer target options 90) as Hspec.
  pose proof (extract_from_first target 90 options None 0%nat) as Hfirst.
  unfold extractOne in Hspec.
  destruct (extract_from scorer target 90 None 0 options) as [[[w s] k]|]; cbn [fst].
  - destruct Hspec as (Hs & Hw & -> & Hall).
    destruct Hfirst as [?|(_ & _ & _ & n & _ & Hn & Hbefore)]; [done|].
    split.
    + split; [done|]. intros Hlow. specialize (Hlow w Hw).
      by apply Qlt_not_le in Hlow.
    + intros o [= <-]. split_and!; [done..|]. by exists n.
  - split; [done|]. by split.
Qed.

(** ** Options listed again *)

Local Abbreviation phon := (get_phonetic_representation doublemetaphone soundex).

Lemma dict_set_present o d :
  coded doublemetaphone soundex d → (o, phon o) ∈ d →
  dict_set o (phon o) d = d.
Proof.
  induction d as [|[k v] d IH]; intros Hd Hin; [by apply elem_of_nil in Hin|].
  simpl. destruct (decide (o = k)) as [->|Hne].
  - by rewrite <- (Hd k v) by left.
  - f_equal. apply IH.
    + intros k' v' Hin'. apply Hd. by right.
    + apply elem_of_cons in Hin as [[= ? _]|Hin]; done.
Qed.

Lemma foldl_dict_set_present extra : ∀ d,
  coded doublemetaphone soundex d →
  (∀ o, o ∈ extra → (o, phon o) ∈ d) →
  foldl (λ d option, dict_set option (phon option) d) d extra = d.
Proof.
  induction extra as [|o extra IH]; intros d Hd Hin; [done|].
  cbn [foldl]. rewrite dict_set_present.
  - apply IH; [done|]. intros o' Ho'. apply Hin. by right.
  - done.
  - apply Hin. by left.
Qed.

Lemma phonetic_map_of_repeats options extra :
  (∀ o, o ∈ extra → o ∈ options) →
  phonetic_map_of doublemetaphone soundex (options ++ extra)
  = phonetic_map_of doublemetaphone soundex options.
Proof.
  intros Hextra. unfold phonetic_map_of. rewrite foldl_app.
  destruct (phonetic_map_from doublemetaphone soundex [] options)
    as (Hcoded & Hmem & _).
  { by intros k v []%elem_of_nil. }
  apply foldl_dict_set_present; [done|].
  intros o Ho. apply Hmem. right. split; [|done]. by apply Hextra.
Qed.

(** Listing options again after the list changes nothing: the result for
    [options ++ extra] is the result for [options] when every option of
    [extra] is already one of [options]. *)
Theorem find_best_phonetic_match_repeats
    (target : string) (options extra : list string) :
  (∀ o, o ∈ extra → o ∈ options) →
  find_best_phonetic_match doublemetaphone soundex scorer target (options ++ extra)
  = find_best_phonetic_match doublemetaphone soundex scorer target options.
Proof.
  intros Hextra. unfold find_best_phonetic_match.
  by rewrite (phonetic_map_of_repeats options extra Hextra).
Qed.

End Collaborators.

(** ** Examples with stand-in scorers *)

(** A stand-in scorer: 100 for equal texts, 95 for texts equal up to case,
    else 10. *)
Definition toy_ratio (a b : string) : Q :=
  if decide (a = b) then 100
  else if decide (Text.lower a = Text.lower b) then 95
  else 10.

Example find_best_match_first_of_best :
  find_best_match toy_ratio "apple" ["Apple"; "grape"; "APPLE"] = Some "Apple".
Proof. vm_compute. reflexivity. Qed.

Example find_best_match_below_cutoff :
  find_best_match toy_ratio "zzz" ["apple"; "orange"] = None.
Proof. vm_compute. reflexivity. Qed.

Lemma find_best_match_contract_witness :
  90 <= toy_ratio "apple" "Apple" ∧
  (∀ o', o' ∈ ["Apple"; "grape"; "APPLE"] →
         toy_ratio "apple" o' <= toy_ratio "apple" "Apple") ∧
  ∃ i, ["Apple"; "grape"; "APPLE"] !! i = Some "Apple" ∧
       ∀ j o', (j < i)%nat → ["Apple"; "grape"; "APPLE"] !! j = Some o' →
               toy_ratio "apple" o' < toy_ratio "apple" "Apple".
Proof.
  apply (proj2 (find_best_match_contract toy_ratio "apple"
                  ["Apple"; "grape"; "APPLE"])).
  vm_compute. reflexivity.
Defined.

Lemma find_best_phonetic_match_repeats_witness :
  find_best_phonetic_match toy_metaphone toy_code toy_scorer "Smith"
    (["Jones"; "Smyth"; "smith"] ++ ["smith"; "Jones"])
  = find_best_phonetic_match toy_metaphone toy_code toy_scorer "Smith"
      ["Jones"; "Smyth"; "smith"].
Proof.
  apply (find_best_phonetic_match_repeats toy_metaphone toy_code toy_scorer
           "Smith" ["Jones"; "Smyth"; "smith"] ["smith"; "Jones"]).
  intros o [->|[->|[]%elem_of_nil]%elem_of_cons]%elem_of_cons.
  - do 2 right; left.
  - left.
Defined.

End BestMatch.

(* ===================================================================== *)
(** * Processes: [get_processes] and [kill_process]                      *)
(* ===================================================================== *)

Module Processes.

Import Text Matching BestMatch.

(** What [process.kill()] does: it returns, or raises one of the two
    exceptions the loop catches ([str(e)] is the message). *)
Inductive kill_outcome : Type :=
  | Killed
  | NoSuchProcess (e : string)
  | AccessDenied (e : string).

(** A process as [psutil.process_iter(['name'])] yields it: [info_name] is
    [p.info['name']], which is [None] when the name cannot be read. *)
Record process : Type := {
  pid : Z;
  info_name : option string;
  kill : kill_outcome
}.

Inductive event : Type :=
  | Print (line : string)
  | Kill (target : Z).

(** The only exception that escapes the loop: [None.lower()]. *)
Inductive exn : Type := AttributeError.

(** [[p.info['name'].lower() for p in psutil.process_iter(['name'])
      if p.info['name']]] *)
Definition get_processes (table : list process) : list string :=
  omap (λ p, match info_name p with
             | Some name => if truthy name then Some (lower name) else None
             | None => None
             end) table.

(** The [for process in psutil.process_iter(['name'])] loop, with the value
    of [success] so far. *)
Fixpoint kill_loop (best_match : string) (procs : list process)
    (success : bool) : (exn + bool) * list event :=
  match procs with
  | [] => (inr success, [])
  | p :: rest =>
      match info_name p with
      | None => (inl AttributeError, [])
      | Some name =>
          if decide (lower name = best_match) then
            match kill p with
            | Killed =>
                let '(r, log) := kill_loop best_match rest true in
                (r, Kill (pid p)
                      :: Print ("Killed process: " +:+ best_match) :: log)
            | NoSuchProcess e | AccessDenied e =>
                let '(r, log) := kill_loop best_match rest success in
                (r, Kill (pid p)
                      :: Print ("Could not terminate " +:+ best_match
                                +:+ ": " +:+ e) :: log)
            end
          else kill_loop best_match rest success
      end
  end.

Section World.

Variable scorer : string → string → Q.
(** The process table when [get_processes] reads it, and when the loop
    reads it. *)
Variable listing : list process.
Variable running : list process.

(** [process_list or get_processes()] *)
Definition process_list_or_default (process_list : option (list string))
    : list string :=
  match process_list with
  | Some (name :: names) => name :: names
  | _ => get_processes listing
  end.

Definition kill_process (process_name : string)
    (process_list : option (list string)) : (exn + bool) * list event :=
  let process_list := process_list_or_default process_list in
  match process_list with
  | [] => (inr false, [Print "No running processes found."])
  | _ =>
      match find_best_match scorer (lower process_name) process_list with
      | Some best_match =>
          if truthy best_match then kill_loop best_match running false
          else (inr false,
                [Print ("No suitable match found for process: "
                        +:+ process_name)])
      | None =>
          (inr false,
           [Print ("No suitable match found for process: " +:+ process_name)])
      end
  end.

(** The match the loop works with, if the call gets that far. *)
Definition chosen (process_name : string)
    (process_list : option (list string)) (best_match : string) : Prop :=
  find_best_match scorer (lower process_name)
    (process_list_or_default process_list) = Some best_match
  ∧ best_match ≠ "".

(** [p] is a process of the loop named [best_match] up to case. *)
Definition named (best_match : string) (p : process) : Prop :=
  ∃ name, info_name p = Some name ∧ lower name = best_match.

End World.

(** ** The snapshot *)

Lemma elem_of_get_processes (table : list process) (name : string) :
  name ∈ get_processes table ↔
  ∃ p raw, p ∈ table ∧ info_name p = Some raw ∧ raw ≠ "" ∧ name = lower raw.
Proof.
  unfold get_processes. rewrite list_elem_of_omap. split.
  - intros (p & Hp & Hname). destruct (info_name p) as [raw|] eqn:Hraw; [|done].
    unfold truthy in Hname. case_bool_decide; simplify_eq/=.
    by exists p, raw.
  - intros (p & raw & Hp & Hraw & Hne & ->). exists p. split; [done|].
    rewrite Hraw. unfold truthy. by rewrite bool_decide_false.
Qed.

(** The names [get_processes] lists are the lowercased names of the
    processes whose name is present and not empty; each listed name is
    unchanged by [lower] and is not empty. *)
Theorem get_processes_contract (table : list process) :
  Forall (λ name, lower name = name ∧ name ≠ "") (get_processes table) ∧
  ∀ name,
    name ∈ get_processes table ↔
    ∃ p raw, p ∈ table ∧ info_name p = Some raw ∧ raw ≠ "" ∧ name = lower raw.
Proof.
  split; [|apply elem_of_get_processes].
  apply Forall_forall. intros name Hname.
  apply elem_of_get_processes in Hname as (p & raw & _ & _ & Hne & ->).
  split; [apply TextFacts.lower_idem|].
  intros Hempty. by apply TextFacts.lower_empty_inv in Hempty.
Qed.

(** ** The loop *)

Lemma kill_loop_kills best_match procs : ∀ success target,
  Kill target ∈ snd (kill_loop best_match procs success) →
  ∃ p, p ∈ procs ∧ pid p = target ∧ named best_match p.
Proof.
  induction procs as [|p procs IH]; intros success target; simpl.
  { by intros []%elem_of_nil. }
  destruct (info_name p) as [name|] eqn:Hname; [|by intros []%elem_of_nil].
  assert (∀ success',
    Kill target ∈ snd (kill_loop best_match procs success') →
    ∃ p0, p0 ∈ p :: procs ∧ pid p0 = target ∧ named best_match p0) as Hrest.
  { intros success' Hin. destruct (IH _ _ Hin) as (p0 & ? & ? & ?).
    exists p0. split; [by right|done]. }
  destruct (decide (lower name = best_match)) as [Hbest|]; [|by apply Hrest].
  assert (∀ line success',
    Kill target ∈ Kill (pid p) :: Print line
                    :: snd (kill_loop best_match procs success') →
    ∃ p0, p0 ∈ p :: procs ∧ pid p0 = target ∧ named best_match p0) as Hhere.
  { intros line success' [[= ->]|[[=]|Hin]%elem_of_cons]%elem_of_cons.
    - exists p. split_and!; [by left|done|by exists name].
    - by eapply Hrest. }
  destruct (kill p);
    [destruct (kill_loop best_match procs true) eqn:Hloop
    |destruct (kill_loop best_match procs success) eqn:Hloop..];
    intros Hin; eapply Hhere; erewrite Hloop; exact Hin.
Qed.

Lemma kill_loop_result best_match procs : ∀ success,
  match fst (kill_loop best_match procs success) with
  | inl AttributeError => ∃ p, p ∈ procs ∧ info_name p = None
  | inr result =>
      (∀ p, p ∈ procs → info_name p ≠ None) ∧
      (result = true ↔
         success = true ∨
         ∃ p, p ∈ procs ∧ named best_match p ∧ kill p = Killed)
  end.
Proof.
  induction procs as [|p procs IH]; intros success; simpl.
  { split; [by intros p []%elem_of_nil|]. split; [by left|].
    intros [?|(p & []%elem_of_nil & _)]; done. }
  destruct (info_name p) as [name|] eqn:Hname;
    [|exists p; split; [by left|done]].
  assert (∀ success',
    (success' = true ↔
       success = true ∨ (named best_match p ∧ kill p = Killed)) →
    match fst (kill_loop best_match procs success') with
    | inl AttributeError => ∃ p0, p0 ∈ p :: procs ∧ info_name p0 = None
    | inr result =>
        (∀ p0, p0 ∈ p :: procs → info_name p0 ≠ None) ∧
        (result = true ↔
           success = true ∨
           ∃ p0, p0 ∈ p :: procs ∧ named best_match p0 ∧ kill p0 = Killed)
    end) as Hrest.
  { intros success' Hsuccess. specialize (IH success').
    destruct (fst (kill_loop best_match procs success')) as [[]|result].
    - destruct IH as (p0 & ? & ?). exists p0. split; [by right|done].
    - destruct IH as [Hnames Hresult]. split.
      + intros p0 [->|?]%elem_of_cons; [by rewrite Hname|by apply Hnames].
      + rewrite Hresult, Hsuccess. split.
        * intros [[?|[? ?]]|(p0 & ? & ? & ?)]; [by left| |].
          -- right. exists p. split; [by left|done].
          -- right. exists p0. split; [by right|done].
        * intros [?|(p0 & [->|?]%elem_of_cons & ? & ?)].
          -- left. by left.
          -- left. by right.
          -- right. by exists p0. }
  destruct (decide (lower name = best_match)) as [Hbest|Hbest].
  - destruct (kill p) eqn:Hkill.
    + destruct (kill_loop best_match procs true) eqn:Hloop.
      replace (fst (s, Kill (pid p) :: Print ("Killed process: " +:+ best_match) :: l))
        with (fst (kill_loop best_match procs true)) by by rewrite Hloop.
      apply Hrest. split; [|done]. intros _. right. split; [by exists name|done].
    + destruct (kill_loop best_match procs success) eqn:Hloop.
      cbn [fst].
      replace s with (fst (kill_loop best_match procs success)) by by rewrite Hloop.
      apply Hrest. split; [by left|]. by intros [?|[_ ?]].
    + destruct (kill_loop best_match procs success) eqn:Hloop.
      cbn [fst].
      replace s with (fst (kill_loop best_match procs success)) by by rewrite Hloop.
      apply Hrest. split; [by left|]. by intros [?|[_ ?]].
  - apply Hrest. split; [by left|].
    intros [?|[(name' & Hname' & ?) _]]; [done|]. congruence.
Qed.

(** What the loop prints and kills is decided before it starts: a call
    that reaches the loop is the loop. *)
Lemma kill_process_chosen scorer listing running process_name process_list
    best_match :
  chosen scorer listing process_name process_list best_match →
  kill_process scorer listing running process_name process_list
  = kill_loop best_match running false.
Proof.
  intros [Hfind Hne]. unfold kill_process.
  assert (find_best_match scorer (lower process_name) [] = None) as Hempty
    by done.
  rewrite Hfind. unfold truthy. rewrite bool_decide_false by done. simpl.
  destruct (process_list_or_default listing process_list) eqn:Hlist; [|done].
  by rewrite Hfind in Hempty.
Qed.

(** A call that does not reach the loop answers [False] and kills
    nothing. *)
Lemma kill_process_not_chosen scorer listing running process_name process_list :
  (∀ best_match,
     ¬ chosen scorer listing process_name process_list best_match) →
  ∃ line, kill_process scorer listing running process_name process_list
          = (inr false, [Print line]).
Proof.
  intros Hnone. unfold kill_process.
  destruct (process_list_or_default listing process_list) eqn:Hlist;
    [by eexists|].
  destruct (find_best_match _ _ _) as [best_match|] eqn:Hfind; [|by eexists].
  unfold truthy. case_bool_decide as Hempty; simpl; [by eexists|].
  destruct (Hnone best_match). split; [|done]. by rewrite Hlist.
Qed.

Lemma chosen_or_not scorer listing process_name process_list :
  (∃ best_match, chosen scorer listing process_name process_list best_match)
  ∨ (∀ best_match,
       ¬ chosen scorer listing process_name process_list best_match).
Proof.
  unfold chosen.
  destruct (find_best_match _ _ _) as [best_match|]; [|right; by intros ? [? _]].
  destruct (decide (best_match = "")) as [->|Hne].
  - right. intros ? [[= <-] ?]. done.
  - left. by exists best_match.
Qed.

Lemma chosen_unique scorer listing process_name process_list b1 b2 :
  chosen scorer listing process_name process_list b1 →
  chosen scorer listing process_name process_list b2 → b1 = b2.
Proof. intros [H1 _] [H2 _]. congruence. Qed.

(** ** The call *)

(** [kill_process] kills only processes of the loop whose lowercased name
    is the match [find_best_match] chose for the lowercased request. *)
Theorem kill_process_kills_only_the_match scorer listing running
    (process_name : string) (process_list : option (list string))
    (target : Z) :
  Kill target ∈ snd (kill_process scorer listing running
                       process_name process_list) →
  ∃ best_match p,
    chosen scorer listing process_name process_list best_match ∧
    p ∈ running ∧ pid p = target ∧ named best_match p.
Proof.
  intros Hin.
  destruct (chosen_or_not scorer listing process_name process_list)
    as [[best_match Hchosen]|Hnone].
  - rewrite (kill_process_chosen _ _ running _ _ _ Hchosen) in Hin.
    apply kill_loop_kills in Hin as (p & ? & ? & ?). by exists best_match, p.
  - destruct (kill_process_not_chosen _ _ running _ _ Hnone) as [line Heq].
    rewrite Heq in Hin. simpl in Hin.
    by apply elem_of_cons in Hin as [[=]|[]%elem_of_nil].
Qed.

(** [kill_process] returns [True] exactly when a match was chosen, every
    process of the loop has a name, and [kill()] succeeded on a process
    named as the match. *)
Theorem kill_process_success scorer listing running
    (process_name : string) (process_list : option (list string)) :
  fst (kill_process scorer listing running process_name process_list)
    = inr true ↔
  ∃ best_match,
    chosen scorer listing process_name process_list best_match ∧
    (∀ p, p ∈ running → info_name p ≠ None) ∧
    ∃ p, p ∈ running ∧ named best_match p ∧ kill p = Killed.
Proof.
  destruct (chosen_or_not scorer listing process_name process_list)
    as [[best_match Hchosen]|Hnone].
  - rewrite (kill_process_chosen _ _ running _ _ _ Hchosen).
    pose proof (kill_loop_result best_match running false) as Hloop.
    destruct (fst (kill_loop best_match running false)) as [[]|result].
    + split; [done|]. intros (_ & _ & Hnames & _).
      destruct Hloop as (p & Hp & Hnone). by destruct (Hnames p Hp).
    + destruct Hloop as [Hnames Hresult]. split.
      * intros [= ->]. exists best_match. split_and!; [done..|].
        by destruct (proj1 Hresult eq_refl).
      * intros (b & Hb & _ & Hkilled).
        rewrite (chosen_unique _ _ _ _ _ _ Hb Hchosen) in Hkilled.
        f_equal. apply Hresult. by right.
  - destruct (kill_process_not_chosen _ _ running _ _ Hnone) as [line ->].
    split; [done|]. intros (b & Hb & _). by destruct (Hnone b).
Qed.

(** [kill_process] raises (AttributeError, from [None.lower()]) exactly
    when a match was chosen and some process of the loop has no name. *)
Theorem kill_process_raises scorer listing running
    (process_name : string) (process_list : option (list string)) :
  fst (kill_process scorer listing running process_name process_list)
    = inl AttributeError ↔
  ∃ best_match,
    chosen scorer listing process_name process_list best_match ∧
    ∃ p, p ∈ running ∧ info_name p = None.
Proof.
  destruct (chosen_or_not scorer listing process_name process_list)
    as [[best_match Hchosen]|Hnone].
  - rewrite (kill_process_chosen _ _ running _ _ _ Hchosen).
    pose proof (kill_loop_result best_match running false) as Hloop.
    destruct (fst (kill_loop best_match running false)) as [[]|result].
    + split; [|done]. intros _. by exists best_match.
    + split; [done|]. intros (_ & _ & p & Hp & Hnone).
      by destruct (proj1 Hloop p Hp).
  - destruct (kill_process_not_chosen _ _ running _ _ Hnone) as [line ->].
    split; [done|]. intros (b & Hb & _). by destruct (Hnone b).
Qed.

(** With a supplied list whose chosen match contains an uppercase letter
    (a name [lower] changes), nothing is killed and the result is not
    [True]: the loop compares lowercased names with the match. *)
Theorem kill_process_uppercase_match scorer listing running
    (process_name : string) (names : list string) (best_match : string) :
  names ≠ [] →
  find_best_match scorer (lower process_name) names = Some best_match →
  lower best_match ≠ best_match →
  fst (kill_process scorer listing running process_name (Some names))
    ≠ inr true ∧
  ∀ target,
    Kill target ∉ snd (kill_process scorer listing running
                         process_name (Some names)).
Proof.
  intros Hnames Hfind Hupper.
  assert (process_list_or_default listing (Some names) = names) as Hlist.
  { by destruct names. }
  assert (best_match ≠ "") as Hne by (by intros ->).
  assert (chosen scorer listing process_name (Some names) best_match)
    as Hchosen by (split; [by rewrite Hlist|done]).
  assert (∀ p, ¬ named best_match p) as Hnobody.
  { intros p (name & _ & <-). apply Hupper. apply TextFacts.lower_idem. }
  rewrite (kill_process_chosen _ _ running _ _ _ Hchosen). split.
  - pose proof (kill_loop_result best_match running false) as Hloop.
    destruct (fst (kill_loop best_match running false)) as [[]|result]; [done|].
    intros [= ->]. destruct Hloop as [_ Hresult].
    destruct (proj1 Hresult eq_refl) as [?|(p & _ & Hp & _)]; [done|].
    by destruct (Hnobody p).
  - intros target Hin. apply kill_loop_kills in Hin as (p & _ & _ & Hp).
    by destruct (Hnobody p).
Qed.

(** Without a supplied list, when the process table does not change
    between the snapshot and the loop and every process has a name, a
    chosen match is the name of a process, and the result says whether
    [kill()] succeeded on one of them. *)
Theorem kill_process_default_list scorer table (process_name : string)
    (best_match : string) :
  (∀ p, p ∈ table → info_name p ≠ None) →
  chosen scorer table process_name None best_match →
  (∃ p, p ∈ table ∧ named best_match p) ∧
  ∃ result,
    fst (kill_process scorer table table process_name None) = inr result ∧
    (result = true ↔ ∃ p, p ∈ table ∧ named best_match p ∧ kill p = Killed).
Proof.
  intros Hnames Hchosen. split.
  - destruct Hchosen as [Hfind _].
    apply find_best_match_elem in Hfind. simpl in Hfind.
    apply elem_of_get_processes in Hfind as (p & raw & Hp & Hraw & _ & ->).
    exists p. split; [done|]. by exists raw.
  - rewrite (kill_process_chosen _ _ table _ _ _ Hchosen).
    pose proof (kill_loop_result best_match table false) as Hloop.
    destruct (fst (kill_loop best_match table false)) as [[]|result].
    + destruct Hloop as (p & Hp & Hnone). by destruct (Hnames p Hp).
    + exists result. split; [done|]. destruct Hloop as [_ ->].
      split; [by intros [?|?]|by right].
Qed.

(** ** Examples *)

Definition toy_table : list process :=
  [ {| pid := 4; info_name := Some "System"; kill := AccessDenied "denied" |};
    {| pid := 812; info_name := Some "Chrome.exe"; kill := Killed |};
    {| pid := 813; info_name := Some ""; kill := Killed |};
    {| pid := 900; info_name := Some "chrome.exe";
       kill := NoSuchProcess "gone" |} ].

Example get_processes_toy_table :
  get_processes toy_table = ["system"; "chrome.exe"; "chrome.exe"].
Proof. vm_compute. reflexivity. Qed.

Example kill_process_toy_table :
  kill_process toy_ratio toy_table toy_table "CHROME.EXE" None
  = (inr true,
     [Kill 812; Print "Killed process: chrome.exe";
      Kill 900; Print "Could not terminate chrome.exe: gone"]).
Proof. vm_compute. reflexivity. Qed.

Example kill_process_supplied_uppercase :
  kill_process toy_ratio toy_table toy_table "chrome.exe" (Some ["Chrome.exe"])
  = (inr false, []).
Proof. vm_compute. reflexivity. Qed.

Example kill_process_nameless_process :
  kill_process toy_ratio toy_table
    [ {| pid := 812; info_name := Some "Chrome.exe"; kill := Killed |};
      {| pid := 1; info_name := None; kill := Killed |} ]
    "chrome.exe" None
  = (inl AttributeError, [Kill 812; Print "Killed process: chrome.exe"]).
Proof. vm_compute. reflexivity. Qed.

Lemma kill_process_kills_only_the_match_witness :
  ∃ best_match p,
    chosen toy_ratio toy_table "CHROME.EXE" None best_match ∧
    p ∈ toy_table ∧ pid p = 900%Z ∧ named best_match p.
Proof.
  apply (kill_process_kills_only_the_match toy_ratio toy_table toy_table
           "CHROME.EXE" None 900).
  vm_compute. do 2 right. left.
Defined.

Lemma kill_process_uppercase_match_witness :
  fst (kill_process toy_ratio toy_table toy_table "chrome.exe"
         (Some ["Chrome.exe"])) ≠ inr true ∧
  ∀ target,
    Kill target ∉ snd (kill_process toy_ratio toy_table toy_table
                         "chrome.exe" (Some ["Chrome.exe"])).
Proof.
  apply (kill_process_uppercase_match toy_ratio toy_table toy_table
           "chrome.exe" ["Chrome.exe"] "Chrome.exe").
  - done.
  - vm_compute. reflexivity.
  - vm_compute. discriminate.
Defined.

Lemma kill_process_default_list_witness :
  (∃ p, p ∈ toy_table ∧ named "chrome.exe" p) ∧
  ∃ result,
    fst (kill_process toy_ratio toy_table toy_table "CHROME.EXE" None)
      = inr result ∧
    (result = true ↔
       ∃ p, p ∈ toy_table ∧ named "chrome.exe" p ∧ kill p = Killed).
Proof.
  apply (kill_process_default_list toy_ratio toy_table "CHROME.EXE"
           "chrome.exe").
  - intros p Hp.
    repeat (apply elem_of_cons in Hp as [->|Hp]; [done|]).
    by apply elem_of_nil in Hp.
  - split; [vm_compute; reflexivity|done].
Defined.

End Processes.
